(** * samples/example1.cpp: a shallow embedding and its properties

    The program is a single translation unit: a [Config] struct, the
    owning-buffer class [data_manager], the free functions [WorkerThread]
    and [calculateTotal], and [main], which starts two worker threads that
    increment the global [Global_count] under [globalMutex].

    Conventions of the embedding.
    - [int] is the 32-bit two's complement integer of the usual targets,
      carried as a [Z] together with its wrap-around [wrap32]; the C++
      standard leaves signed overflow undefined, the model takes the value
      the hardware addition gives.  [size_t] is 64 bits wide.
    - [cout] is a list of lines, a line being the list of the items
      streamed with [<<] before [endl].
    - the free store is a finite map from addresses to arrays; [new] always
      finds room (allocation failure is not modelled).
    - threads are interleaved at the granularity of their accesses to
      shared objects (the mutex, [Global_count], [cout]). *)

From Stdlib Require Import ZArith Lia List.
From stdpp Require Import base option list gmap strings.

Local Open Scope Z_scope.

(** * Part I: the program *)

(** ** Machine integers *)

Module MachineInt.

Definition int_min : Z := -2147483648.
Definition int_max : Z := 2147483647.

(** Reduction of a mathematical integer to the [int] it is stored as. *)
Definition wrap32 (z : Z) : Z := (z + 2147483648) mod 4294967296 - 2147483648.

(** Conversion to [size_t], as in the comparison [i < size] of an [int]
    with a [size_t]. *)
Definition to_size_t (z : Z) : Z := z mod 18446744073709551616.

Definition is_int (z : Z) : Prop := int_min <= z <= int_max.

Definition int_add (a b : Z) : Z := wrap32 (a + b).
Definition int_mul (a b : Z) : Z := wrap32 (a * b).

End MachineInt.
Import MachineInt.

(** ** Standard output *)

(** What [operator<<] is applied to. *)
Inductive item : Type :=
| OStr (s : string)
| OInt (z : Z)
| OBool (b : bool).

(** The items streamed up to the next [endl]. *)
Definition line : Type := list item.

#[global] Instance item_eq_dec : EqDecision item.
Proof. solve_decision. Defined.

(** ** Macros and globals (lines 10-15) *)

Definition maxCount : Z := 10.

(** ** [Config] (lines 24-29) *)

Record Config : Type := mkConfig {
  Port : Z;
  HostName : string;
  useSSL : bool;
}.

#[global] Instance Config_eq_dec : EqDecision Config.
Proof. solve_decision. Defined.

(** A write to the member [HostName] of a [Config] object. *)
Definition set_HostName (h : string) (c : Config) : Config :=
  {| Port := Port c; HostName := h; useSSL := useSSL c |}.

(** ** The free store *)

(** An array made by [new int[n]]: an element holds no value until it is
    assigned. *)
Abbreviation block := (list (option Z)).
Abbreviation heap := (gmap positive block).

(** [new int[n]]: a negative length throws [std::bad_array_new_length]. *)
Definition new_array (n : Z) (h : heap) : option (positive * heap) :=
  if n <? 0 then None
  else let a := fresh (dom h) in
       Some (a, <[a := replicate (Z.to_nat n) None]> h).

(** [p[i] = v]; outside the array there is no defined behaviour. *)
Definition store (p : positive) (i v : Z) (h : heap) : option heap :=
  blk ← h !! p;
  if bool_decide (0 <= i < Z.of_nat (length blk))
  then Some (<[p := <[Z.to_nat i := Some v]> blk]> h)
  else None.

(** Reading [p[i]]; an element never assigned has no defined value. *)
Definition load (p : positive) (i : Z) (h : heap) : option Z :=
  blk ← h !! p;
  if bool_decide (0 <= i) then mjoin (blk !! Z.to_nat i) else None.

(** ** [data_manager] (lines 31-60) *)

Record data_manager : Type := mk_data_manager {
  rawBuffer : positive;
  size : Z;
}.

(** The loop of the constructor, lines 41-44. *)
Fixpoint ctor_loop (fuel : nat) (i sz : Z) (p : positive) (h : heap) : option heap :=
  match fuel with
  | O => None
  | S fuel' =>
      if i <? sz
      then h' ← store p i (int_mul i 2) h;
           ctor_loop fuel' (int_add i 1) sz p h'
      else Some h
  end.

(** What line 43 leaves in element [j]. *)
Definition filled (j : Z) : option Z := Some (int_mul j 2).

(** [data_manager::data_manager(int sz)]. *)
Definition data_manager_ctor (sz : Z) (h : heap) : option (data_manager * heap) :=
  '(p, h1) ← new_array sz h;
  h2 ← ctor_loop (S (Z.to_nat sz)) 0 sz p h1;
  Some ({| rawBuffer := p; size := to_size_t sz |}, h2).

(** The loop of [PrintData], lines 49-52; [i] is converted to [size_t]
    for the comparison with [size]. *)
Fixpoint PrintData_loop (fuel : nat) (i : Z) (dm : data_manager) (h : heap)
    (out : list line) : option (list line) :=
  match fuel with
  | O => None
  | S fuel' =>
      if to_size_t i <? size dm
      then v ← load (rawBuffer dm) i h;
           PrintData_loop fuel' (int_add i 1) dm h (out ++ [[OStr "Val: "; OInt v]])
      else Some out
  end.

(** [data_manager::PrintData()]: the lines it writes. *)
Definition PrintData (dm : data_manager) (h : heap) : option (list line) :=
  PrintData_loop (S (Z.to_nat (size dm))) 0 dm h [].

(** The class declares no destructor (line 59).  The implicit one ends the
    lifetime of the members [rawBuffer] and [size] and leaves the array
    [rawBuffer] points to in the free store. *)
Definition data_manager_dtor (dm : data_manager) (h : heap) : heap := h.

(** One instance, from construction to destruction. *)
Definition lifetime (sz : Z) (h : heap) : option heap :=
  '(dm, h') ← data_manager_ctor sz h;
  Some (data_manager_dtor dm h').

(** [n] instances, one after the other. *)
Fixpoint lifetimes (n : nat) (sz : Z) (h : heap) : option heap :=
  match n with
  | O => Some h
  | S n' => h' ← lifetime sz h; lifetimes n' sz h'
  end.

(** ** [calculateTotal] (lines 82-90)

    The result is the returned [int] and the lines written to [cout]. *)

Definition calculateTotal (A B C D : Z) : Z * list line :=
  let Result := int_add (int_add (int_add A B) C) D in
  if 100 <? Result
  then (Result, [[OStr "Large total: "; OInt Result]])
  else (Result, []).

(** ** [WorkerThread] (lines 64-80) and the threads of [main] *)

(** The two [std::thread] objects of [main], [t1] and [t2]. *)
Inductive tid : Type := T1 | T2.

#[global] Instance tid_eq_dec : EqDecision tid.
Proof. solve_decision. Defined.

(** Who takes a step: [main] or a worker thread. *)
Inductive actor : Type := Main | W (t : tid).

#[global] Instance actor_eq_dec : EqDecision actor.
Proof. solve_decision. Defined.

(** What a step does to the shared objects. *)
Inductive event : Type :=
| EvAcquire                (* [globalMutex.lock()], by the [lock_guard] *)
| EvRelease                (* [globalMutex.unlock()], at the end of its scope *)
| EvLoad (v : Z)           (* a read of [Global_count] *)
| EvStore (v : Z)          (* a write to [Global_count] *)
| EvPrint (l : line)       (* a line sent to [cout] *)
| EvSpawn (t : tid)        (* the constructor of a [std::thread] *)
| EvJoin (t : tid).        (* [join()] returning *)

#[global] Instance event_eq_dec : EqDecision event.
Proof. solve_decision. Defined.

(** Where a worker stands in [WorkerThread]; [i] is its loop variable and
    [v] the value it read from [Global_count] for [+= 1]. *)
Inductive wpc : Type :=
| AtLoop (i : Z)           (* line 66, the test, then line 68 *)
| AtLoad (i : Z)           (* line 69, the read *)
| AtStore (i v : Z)        (* line 69, the write *)
| AtPrint (i : Z)          (* lines 70-74 *)
| AtCheck (i : Z)          (* line 75 *)
| AtWarn (i : Z)           (* line 77 *)
| AtUnlock (i : Z)         (* line 79, then [i++] *)
| Returned.                (* line 80 *)

(** The frame of one call of [WorkerThread]: its parameters [ID] and [cfg]
    (a [Config] object of its own, passed by value) and its position.  The
    parameter [dm] is a reference the body never uses. *)
Record worker : Type := mkWorker {
  ID : Z;
  cfg : Config;
  pc : wpc;
}.

(** Where [main] stands, from line 117 on. *)
Inductive mpc : Type :=
| MSpawn1 | MSpawn2 | MJoin1 | MJoin2 | MPrint | MReturn.

#[global] Instance mpc_eq_dec : EqDecision mpc.
Proof. solve_decision. Defined.

Record state : Type := mkState {
  Global_count : Z;              (* line 14 *)
  globalMutex : option tid;      (* line 62: the owner, if locked *)
  main_pc : mpc;
  main_cfg : Config;             (* the local [cfg] of [main] *)
  t1 : option worker;            (* [None] until the thread is started *)
  t2 : option worker;
  log : list (actor * event);    (* what happened so far, oldest first *)
}.

Definition thread (t : tid) (s : state) : option worker :=
  match t with T1 => t1 s | T2 => t2 s end.

Definition set_thread (t : tid) (w : worker) (s : state) : state :=
  mkState (Global_count s) (globalMutex s) (main_pc s) (main_cfg s)
    (match t with T1 => Some w | T2 => t1 s end)
    (match t with T1 => t2 s | T2 => Some w end)
    (log s).

Definition set_count (v : Z) (s : state) : state :=
  mkState v (globalMutex s) (main_pc s) (main_cfg s) (t1 s) (t2 s) (log s).

Definition set_mutex (m : option tid) (s : state) : state :=
  mkState (Global_count s) m (main_pc s) (main_cfg s) (t1 s) (t2 s) (log s).

Definition set_main_pc (p : mpc) (s : state) : state :=
  mkState (Global_count s) (globalMutex s) p (main_cfg s) (t1 s) (t2 s) (log s).

Definition emit (a : actor) (e : event) (s : state) : state :=
  mkState (Global_count s) (globalMutex s) (main_pc s) (main_cfg s) (t1 s) (t2 s)
    (log s ++ [(a, e)]).

Definition goto (t : tid) (w : worker) (p : wpc) (s : state) : state :=
  set_thread t (mkWorker (ID w) (cfg w) p) s.

(** A write to the parameter [cfg] of worker [t], which the body of
    [WorkerThread] never does: [f] is what the write does to the object. *)
Definition update_cfg (t : tid) (f : Config -> Config) (s : state) : state :=
  match thread t s with
  | Some w => set_thread t (mkWorker (ID w) (f (cfg w)) (pc w)) s
  | None => s
  end.

(** Lines 70-74. *)
Definition status_line (id i : Z) (c : Config) : line :=
  [OStr "Worker "; OInt id; OStr " iteration "; OInt i;
   OStr " host="; OStr (HostName c);
   OStr " port="; OInt (Port c);
   OStr " useSSL="; OBool (useSSL c)].

(** Line 77. *)
Definition warning_line : line := [OStr "High load warning!"].

(** One step of worker [t], whose frame is [w]; [None] when it cannot move:
    it waits for the mutex, or it has returned. *)
Definition worker_step (t : tid) (w : worker) (s : state) : option state :=
  match pc w with
  | AtLoop i =>
      if i <? maxCount then
        match globalMutex s with
        | None => Some (emit (W t) EvAcquire (goto t w (AtLoad i) (set_mutex (Some t) s)))
        | Some _ => None
        end
      else Some (goto t w Returned s)
  | AtLoad i =>
      let v := Global_count s in
      Some (emit (W t) (EvLoad v) (goto t w (AtStore i v) s))
  | AtStore i v =>
      let v' := int_add v 1 in
      Some (emit (W t) (EvStore v') (goto t w (AtPrint i) (set_count v' s)))
  | AtPrint i =>
      Some (emit (W t) (EvPrint (status_line (ID w) i (cfg w))) (goto t w (AtCheck i) s))
  | AtCheck i =>
      let v := Global_count s in
      Some (emit (W t) (EvLoad v)
              (goto t w (if 50 <? v then AtWarn i else AtUnlock i) s))
  | AtWarn i =>
      Some (emit (W t) (EvPrint warning_line) (goto t w (AtUnlock i) s))
  | AtUnlock i =>
      Some (emit (W t) EvRelease (goto t w (AtLoop (int_add i 1)) (set_mutex None s)))
  | Returned => None
  end.

Definition has_returned (t : tid) (s : state) : bool :=
  match thread t s with
  | Some w => match pc w with Returned => true | _ => false end
  | None => false
  end.

(** The identity [main] passes to each worker (lines 117-118). *)
Definition tid_ID (t : tid) : Z := match t with T1 => 1 | T2 => 2 end.

(** The constructor of [std::thread] copies [cfg] for the new thread. *)
Definition spawn (t : tid) (s : state) : state :=
  emit Main (EvSpawn t) (set_thread t (mkWorker (tid_ID t) (main_cfg s) (AtLoop 0)) s).

(** One step of [main], lines 117-127; [join] waits for the worker to
    return. *)
Definition main_step (s : state) : option state :=
  match main_pc s with
  | MSpawn1 => Some (set_main_pc MSpawn2 (spawn T1 s))
  | MSpawn2 => Some (set_main_pc MJoin1 (spawn T2 s))
  | MJoin1 =>
      if has_returned T1 s then Some (set_main_pc MJoin2 (emit Main (EvJoin T1) s)) else None
  | MJoin2 =>
      if has_returned T2 s then Some (set_main_pc MPrint (emit Main (EvJoin T2) s)) else None
  | MPrint =>
      Some (set_main_pc MReturn
              (emit Main (EvPrint [OStr "Global_count = "; OInt (Global_count s)]) s))
  | MReturn => None
  end.

Definition step (a : actor) (s : state) : option state :=
  match a with
  | Main => main_step s
  | W t => w ← thread t s; worker_step t w s
  end.

(** An interleaving is the list of the actors the scheduler picks; picking
    one that cannot move leaves the state as it is. *)
Fixpoint run (sched : list actor) (s : state) : state :=
  match sched with
  | [] => s
  | a :: sched' => run sched' (default s (step a s))
  end.

(** The events of one actor, in order. *)
Definition proj (a : actor) (l : list (actor * event)) : list event :=
  omap (fun x => if decide (x.1 = a) then Some x.2 else None) l.

(** The lines on [cout], in order. *)
Definition cout (s : state) : list line :=
  omap (fun x => match x.2 with EvPrint l => Some l | _ => None end) (log s).

(** The state in which the threads are started: [Global_count] holds [c0],
    the [cfg] of [main] is [cfg0] and [out0] is on [cout]. *)
Definition init (c0 : Z) (cfg0 : Config) (out0 : list line) : state :=
  {| Global_count := c0; globalMutex := None; main_pc := MSpawn1;
     main_cfg := cfg0; t1 := None; t2 := None;
     log := map (fun l => (Main, EvPrint l)) out0 |}.

(** ** [main] (lines 92-127) *)

(** Lines 96-99. *)
Definition main_config : Config :=
  {| Port := 8080; HostName := "localhost"; useSSL := true |}.

(** Lines 94-115, which run before any thread exists: the lines written and
    the free store.  The locals [nums] and [nameToScore] are filled and
    never read; they are left out. *)
Definition main_prefix : option (list line * heap) :=
  '(dm, h) ← data_manager_ctor 10 ∅;
  vals ← PrintData dm h;
  let '(total, report) := calculateTotal 1 2 3 4 in
  Some ([[OStr "Starting bad-style demo..."]] ++ vals ++ report
          ++ [[OStr "Total: "; OInt total]], h).

(** What lines 94-115 write. *)
Definition main_lines : list line := from_option fst [] main_prefix.

(** The program under the interleaving [sched], with [Global_count]
    initialised to 0 (line 14). *)
Definition main (sched : list actor) : option state :=
  '(out0, _) ← main_prefix;
  Some (run sched (init 0 main_config out0)).

(** ** Notions used in the statements *)

(** Whether the worker is inside the scope of its [lock_guard]. *)
Definition holds_lock (p : wpc) : bool :=
  match p with
  | AtLoop _ | Returned => false
  | _ => true
  end.

(** How many times the worker has run the loop body to its end. *)
Definition completed (p : wpc) : Z :=
  match p with
  | AtLoop i | AtLoad i | AtStore i _ | AtPrint i | AtCheck i | AtWarn i
  | AtUnlock i => i
  | Returned => maxCount
  end.

(** How many times the worker has written to [Global_count]. *)
Definition increments (p : wpc) : Z :=
  match p with
  | AtLoop i | AtLoad i | AtStore i _ => i
  | AtPrint i | AtCheck i | AtWarn i | AtUnlock i => i + 1
  | Returned => maxCount
  end.

Definition completed_of (o : option worker) : Z :=
  from_option (fun w => completed (pc w)) 0 o.

Definition increments_of (o : option worker) : Z :=
  from_option (fun w => increments (pc w)) 0 o.

(** The iterations all the workers have completed. *)
Definition completed_total (s : state) : Z :=
  completed_of (t1 s) + completed_of (t2 s).

(** The events of iteration [i] of the worker [id], up to the release of
    the mutex; [g] is the value its increment left in [Global_count]. *)
Definition locked_part (id : Z) (c : Config) (i g : Z) : list event :=
  [EvAcquire; EvLoad (g - 1); EvStore g; EvPrint (status_line id i c); EvLoad g]
    ++ (if 50 <? g then [EvPrint warning_line] else []).

(** The events of a whole iteration. *)
Definition iteration (id : Z) (c : Config) (i g : Z) : list event :=
  locked_part id c i g ++ [EvRelease].

(** The events of the iterations 0, 1, ..., the one of index [i] having
    left the [i]-th value of [gs] in [Global_count]. *)
Definition iterations (id : Z) (c : Config) (gs : list Z) : list event :=
  concat (imap (fun i g => iteration id c (Z.of_nat i) g) gs).

(** The events of the iteration a worker is in, when [Global_count]
    holds [g]. *)
Definition in_progress (id : Z) (c : Config) (p : wpc) (g : Z) : list event :=
  match p with
  | AtLoop _ | Returned => []
  | AtLoad _ => [EvAcquire]
  | AtStore _ v => [EvAcquire; EvLoad v]
  | AtPrint _ => [EvAcquire; EvLoad (g - 1); EvStore g]
  | AtCheck i => [EvAcquire; EvLoad (g - 1); EvStore g; EvPrint (status_line id i c)]
  | AtWarn i =>
      [EvAcquire; EvLoad (g - 1); EvStore g; EvPrint (status_line id i c); EvLoad g]
  | AtUnlock i => locked_part id c i g
  end.

(** What holds of a started worker [w], the frame of thread [t], in every
    state the program reaches from [init c0 cfg0 out0]. *)
Record worker_inv (cfg0 : Config) (s : state) (t : tid) (w : worker) : Prop := {
  wi_ID : ID w = tid_ID t;
  wi_cfg : cfg w = cfg0;
  wi_range : 0 <= completed (pc w) <= maxCount;
  wi_inside : holds_lock (pc w) = true -> completed (pc w) < maxCount;
  wi_lock : holds_lock (pc w) = true <-> globalMutex s = Some t;
  wi_read : forall i v, pc w = AtStore i v -> v = Global_count s;
  wi_warn : forall i, pc w = AtWarn i -> 50 < Global_count s;
  wi_trace : exists gs : list Z,
    Z.of_nat (length gs) = completed (pc w) /\
    proj (W t) (log s) =
      iterations (ID w) (cfg w) gs
        ++ in_progress (ID w) (cfg w) (pc w) (Global_count s);
}.

(** What holds of every state the program reaches from
    [init c0 cfg0 out0]. *)
Record inv (c0 : Z) (cfg0 : Config) (s : state) : Prop := {
  inv_cfg : main_cfg s = cfg0;
  inv_workers : forall t w, thread t s = Some w -> worker_inv cfg0 s t w;
  inv_mutex : forall t, globalMutex s = Some t -> is_Some (thread t s);
  inv_unborn : forall t, thread t s = None -> proj (W t) (log s) = [];
  inv_count :
    Global_count s = c0 + increments_of (t1 s) + increments_of (t2 s);
  inv_main :
    match main_pc s with
    | MSpawn1 => t1 s = None /\ t2 s = None
    | MSpawn2 => is_Some (t1 s) /\ t2 s = None
    | MJoin1 => is_Some (t1 s) /\ is_Some (t2 s)
    | MJoin2 => has_returned T1 s = true /\ is_Some (t2 s)
    | MPrint | MReturn => has_returned T1 s = true /\ has_returned T2 s = true
    end;
  inv_final :
    main_pc s = MReturn ->
    last (log s) = Some (Main, EvPrint [OStr "Global_count = "; OInt (Global_count s)]);
}.

(** A bound on the steps the program can still take. *)
Definition steps_left_pc (p : wpc) : nat :=
  match p with
  | AtLoop i => S (7 * Z.to_nat (maxCount - i))
  | AtLoad i => 7 * Z.to_nat (maxCount - i) - 0
  | AtStore i _ => 7 * Z.to_nat (maxCount - i) - 1
  | AtPrint i => 7 * Z.to_nat (maxCount - i) - 2
  | AtCheck i => 7 * Z.to_nat (maxCount - i) - 3
  | AtWarn i => 7 * Z.to_nat (maxCount - i) - 4
  | AtUnlock i => 7 * Z.to_nat (maxCount - i) - 5
  | Returned => 0
  end.

Definition steps_left_main (p : mpc) : nat :=
  match p with
  | MSpawn1 => 5 | MSpawn2 => 4 | MJoin1 => 3 | MJoin2 => 2 | MPrint => 1
  | MReturn => 0
  end.

Definition steps_left (s : state) : nat :=
  (steps_left_main (main_pc s)
   + from_option (fun w => steps_left_pc (pc w)) 72 (t1 s)
   + from_option (fun w => steps_left_pc (pc w)) 72 (t2 s))%nat.

(** Sample interleavings: one worker after the other, and the two workers
    in turn. *)
Definition sched_sequential : list actor :=
  [Main; Main] ++ replicate 61 (W T1) ++ replicate 61 (W T2) ++ [Main; Main; Main].

Definition sched_alternating : list actor :=
  [Main; Main] ++ mjoin (replicate 140 [W T1; W T2]) ++ [Main; Main; Main].

(** [main] starts [t1], which runs its first iteration up to the test of
    line 75. *)
Definition sched_first_check : list actor :=
  [Main; W T1; W T1; W T1; W T1; W T1].

(** How many of the picks of the scheduler made the program move. *)
Fixpoint moves (sched : list actor) (s : state) : nat :=
  match sched with
  | [] => 0
  | a :: sched' =>
      match step a s with
      | Some s' => S (moves sched' s')
      | None => moves sched' s
      end
  end.

(** The lines among the events of an actor. *)
Definition prints (es : list event) : list line :=
  omap (fun e => match e with EvPrint l => Some l | _ => None end) es.

(** Instances of the sizes [szs], one after the other, each destroyed
    before the next is constructed. *)
Fixpoint lifetimes_of (szs : list Z) (h : heap) : option heap :=
  match szs with
  | [] => Some h
  | sz :: szs' => h' ← lifetime sz h; lifetimes_of szs' h'
  end.

(** * Part II: properties *)

(** ** Machine integers *)

Lemma wrap32_id z : is_int z -> wrap32 z = z.
Proof.
  unfold is_int, int_min, int_max, wrap32. intros H.
  rewrite Z.mod_small; lia.
Qed.

Lemma wrap32_is_int z : is_int (wrap32 z).
Proof.
  unfold is_int, int_min, int_max, wrap32.
  pose proof (Z.mod_pos_bound (z + 2147483648) 4294967296). lia.
Qed.

Lemma wrap32_add_l a b : wrap32 (wrap32 a + b) = wrap32 (a + b).
Proof.
  unfold wrap32.
  replace ((a + 2147483648) mod 4294967296 - 2147483648 + b + 2147483648)
    with ((a + 2147483648) mod 4294967296 + b) by lia.
  rewrite Zplus_mod_idemp_l. f_equal. f_equal. lia.
Qed.

Lemma to_size_t_id z : 0 <= z <= int_max -> to_size_t z = z.
Proof.
  unfold to_size_t, int_max. intros H. rewrite Z.mod_small; lia.
Qed.

Lemma int_add_1 i : int_min <= i < int_max -> int_add i 1 = i + 1.
Proof. intros H. apply wrap32_id. unfold is_int. lia. Qed.

(** ** [calculateTotal] *)

Lemma calculateTotal_wrap A B C D :
  (calculateTotal A B C D).1 = wrap32 (A + B + C + D).
Proof.
  unfold calculateTotal, int_add.
  rewrite (wrap32_add_l (A + B) C), (wrap32_add_l (A + B + C) D).
  by destruct (100 <? _).
Qed.

Lemma calculateTotal_report A B C D :
  (calculateTotal A B C D).2 =
  if 100 <? wrap32 (A + B + C + D)
  then [[OStr "Large total: "; OInt (wrap32 (A + B + C + D))]] else [].
Proof.
  unfold calculateTotal, int_add.
  rewrite (wrap32_add_l (A + B) C), (wrap32_add_l (A + B + C) D).
  by destruct (100 <? _).
Qed.

(** C3, as stated, fails: the arguments are [int]s and so is the result;
    on [(INT_MAX, 1, 0, 0)] the sum is 2147483648, which no [int] holds,
    and the function returns -2147483648. *)
Lemma calculateTotal_sum_overflow :
  is_int 2147483647 /\ is_int 1 /\ is_int 0 /\
  (calculateTotal 2147483647 1 0 0).1 = -2147483648 /\
  (calculateTotal 2147483647 1 0 0).1 <> 2147483647 + 1 + 0 + 0.
Proof. unfold is_int, int_min, int_max. repeat split; (lia || by vm_compute). Qed.

(** C3, amended: whenever the sum of the four arguments is in the range of
    [int], [calculateTotal] returns it, with or without the report; it
    returns 10 on (1,2,3,4), where nothing is reported, and 120 on
    (30,30,30,30), where the total is reported. *)
Theorem calculateTotal_sum (A B C D : Z) (Hsum : is_int (A + B + C + D)) :
  (calculateTotal A B C D).1 = A + B + C + D /\
  ((calculateTotal A B C D).2 = [] \/
   (calculateTotal A B C D).2 = [[OStr "Large total: "; OInt (A + B + C + D)]]) /\
  calculateTotal 1 2 3 4 = (10, []) /\
  calculateTotal 30 30 30 30 = (120, [[OStr "Large total: "; OInt 120]]).
Proof.
  rewrite calculateTotal_wrap, calculateTotal_report, (wrap32_id _ Hsum).
  repeat split; try done.
  destruct (100 <? _); auto.
Qed.

Lemma calculateTotal_sum_witness :
  is_int (30 + 30 + 30 + 30) /\ (calculateTotal 30 30 30 30).1 = 30 + 30 + 30 + 30.
Proof.
  assert (H : is_int (30 + 30 + 30 + 30)) by (unfold is_int, int_min, int_max; lia).
  split; [exact H | exact (proj1 (calculateTotal_sum 30 30 30 30 H))].
Defined.

(** C4, as stated, fails in both directions once the sum leaves the range
    of [int]: (INT_MAX, 1, 0, 0) sums to more than 100 and nothing is
    reported; (INT_MIN, -1, 0, 0) sums to less and 2147483647 is reported. *)
Lemma calculateTotal_report_overflow :
  is_int 2147483647 /\ is_int 1 /\ is_int 0 /\ is_int (-2147483648) /\ is_int (-1) /\
  (100 < 2147483647 + 1 + 0 + 0 /\ (calculateTotal 2147483647 1 0 0).2 = []) /\
  (-2147483648 + -1 + 0 + 0 <= 100 /\
   (calculateTotal (-2147483648) (-1) 0 0).2 = [[OStr "Large total: "; OInt 2147483647]]).
Proof. unfold is_int, int_min, int_max. repeat split; (lia || by vm_compute). Qed.

(** C4, amended: whenever the sum of the four arguments is in the range of
    [int], the "Large total" line is written if and only if the sum exceeds
    100, and it carries the sum; nothing else is written.  Nothing is
    written on (1,2,3,4); "Large total: 120" is written on (30,30,30,30). *)
Theorem calculateTotal_report_iff (A B C D : Z) (Hsum : is_int (A + B + C + D)) :
  ((calculateTotal A B C D).2 = [[OStr "Large total: "; OInt (A + B + C + D)]]
     <-> 100 < A + B + C + D) /\
  ((calculateTotal A B C D).2 = [] <-> A + B + C + D <= 100) /\
  (calculateTotal 1 2 3 4).2 = [] /\
  (calculateTotal 30 30 30 30).2 = [[OStr "Large total: "; OInt 120]].
Proof.
  rewrite calculateTotal_report, (wrap32_id _ Hsum).
  destruct (Z.ltb_spec 100 (A + B + C + D)); repeat split; try done; lia.
Qed.

Lemma calculateTotal_report_iff_witness :
  is_int (1 + 2 + 3 + 4) /\
  ((calculateTotal 1 2 3 4).2 = [] <-> 1 + 2 + 3 + 4 <= 100).
Proof.
  assert (H : is_int (1 + 2 + 3 + 4)) by (unfold is_int, int_min, int_max; lia).
  split; [exact H | exact (proj1 (proj2 (calculateTotal_report_iff 1 2 3 4 H)))].
Defined.

(** ** [data_manager] *)

Lemma ctor_loop_spec (k : nat) : forall fuel i sz p (h : heap) (pre : block),
  0 <= i -> sz = i + Z.of_nat k -> sz <= int_max ->
  Z.of_nat (length pre) = i ->
  h !! p = Some (pre ++ replicate k None) ->
  (k < fuel)%nat ->
  ctor_loop fuel i sz p h = Some (<[p := pre ++ (filled <$> seqZ i (Z.of_nat k))]> h).
Proof.
  induction k as [|k IH]; intros fuel i sz p h pre Hi Hsz Hmax Hpre Hp Hfuel;
    (destruct fuel as [|fuel]; [lia|]); cbn [ctor_loop].
  - destruct (Z.ltb_spec i sz); [lia|].
    cbn. rewrite app_nil_r in *. by rewrite insert_id.
  - destruct (Z.ltb_spec i sz); [|lia].
    unfold store. rewrite Hp. cbn [mbind option_bind].
    rewrite bool_decide_eq_true_2
      by (rewrite length_app, length_replicate; lia).
    cbn [mbind option_bind].
    assert (Hins : <[Z.to_nat i := Some (int_mul i 2)]> (pre ++ replicate (S k) None)
                   = (pre ++ [filled i]) ++ replicate k None).
    { replace (Z.to_nat i) with (length pre + 0)%nat by lia.
      rewrite insert_app_r. cbn. by rewrite <- app_assoc. }
    rewrite Hins.
    assert (Hi1 : int_add i 1 = i + 1)
      by (apply int_add_1; unfold int_min, int_max in *; lia).
    rewrite Hi1.
    rewrite (IH fuel (i + 1) sz p _ (pre ++ [filled i])); try lia.
    + rewrite insert_insert_eq. f_equal. f_equal.
      rewrite <- app_assoc. f_equal.
      rewrite (seqZ_cons i (Z.of_nat (S k))) by lia. cbn [fmap list_fmap app].
      f_equal. f_equal. f_equal; lia.
    + rewrite length_app. cbn. lia.
    + by rewrite lookup_insert_eq.
Qed.

(** The constructor allocates one fresh array and fills it. *)
Lemma data_manager_ctor_spec (sz : Z) (h : heap) :
  0 <= sz <= int_max ->
  exists p, h !! p = None /\
    data_manager_ctor sz h =
      Some ({| rawBuffer := p; size := sz |},
            <[p := filled <$> seqZ 0 sz]> h).
Proof.
  intros Hsz. exists (fresh (dom h)). split.
  { apply not_elem_of_dom, is_fresh. }
  unfold data_manager_ctor, new_array.
  destruct (Z.ltb_spec sz 0); [lia|]. cbn [mbind option_bind].
  rewrite (ctor_loop_spec (Z.to_nat sz) _ 0 sz _ _ []); try done; try lia.
  - cbn [mbind option_bind app]. rewrite insert_insert_eq, Z2Nat.id by lia.
    by rewrite to_size_t_id.
  - cbn [app]. by rewrite lookup_insert_eq.
Qed.

Lemma PrintData_loop_spec (dm : data_manager) (h : heap) (vs : list Z) (k : nat) :
  h !! rawBuffer dm = Some (Some <$> vs) ->
  size dm = Z.of_nat (length vs) -> size dm <= int_max ->
  forall fuel i out,
  0 <= i -> size dm = i + Z.of_nat k -> (k < fuel)%nat ->
  PrintData_loop fuel i dm h out =
    Some (out ++ ((fun v => [OStr "Val: "; OInt v]) <$> drop (Z.to_nat i) vs)).
Proof.
  intros Hp Hlen Hmax. induction k as [|k IH]; intros fuel i out Hi Hsz Hfuel;
    (destruct fuel as [|fuel]; [lia|]); cbn [PrintData_loop];
    rewrite to_size_t_id by lia.
  - destruct (Z.ltb_spec i (size dm)); [lia|].
    rewrite drop_ge by lia. cbn. by rewrite app_nil_r.
  - destruct (Z.ltb_spec i (size dm)); [|lia].
    destruct (lookup_lt_is_Some_2 vs (Z.to_nat i)) as [v Hv]; [lia|].
    unfold load. rewrite Hp. cbn [mbind option_bind].
    rewrite bool_decide_eq_true_2 by lia.
    rewrite list_lookup_fmap, Hv. cbn [fmap option_fmap option_map mjoin option_join mbind option_bind].
    rewrite int_add_1 by (unfold int_min, int_max in *; lia).
    rewrite IH by lia.
    rewrite (drop_S vs v (Z.to_nat i) Hv). cbn [fmap list_fmap].
    rewrite <- app_assoc. cbn [app].
    by replace (Z.to_nat (i + 1)) with (S (Z.to_nat i)) by lia.
Qed.

(** The constructor followed by [PrintData]: one line per element, the
    element of index [j] being [j * 2] as an [int]. *)
Lemma ctor_PrintData (sz : Z) (h : heap) :
  0 <= sz <= int_max ->
  exists dm h',
    data_manager_ctor sz h = Some (dm, h') /\
    PrintData dm h' =
      Some ((fun j => [OStr "Val: "; OInt (int_mul j 2)]) <$> seqZ 0 sz).
Proof.
  intros Hsz. destruct (data_manager_ctor_spec sz h Hsz) as (p & _ & Hctor).
  eexists _, _. split; [exact Hctor|].
  unfold PrintData.
  rewrite (PrintData_loop_spec _ _ ((fun j => int_mul j 2) <$> seqZ 0 sz) (Z.to_nat sz));
    cbn [rawBuffer size]; try lia.
  - change (Z.to_nat 0) with 0%nat. rewrite drop_0.
    by rewrite <- list_fmap_compose.
  - rewrite lookup_insert_eq. by rewrite <- list_fmap_compose.
  - rewrite length_fmap, length_seqZ. lia.
Qed.

Lemma ctor_PrintData_lookup (sz : Z) (h : heap) (j : Z) :
  0 <= j < sz -> sz <= int_max ->
  exists dm h' out,
    data_manager_ctor sz h = Some (dm, h') /\
    PrintData dm h' = Some out /\
    Z.of_nat (length out) = sz /\
    out !! Z.to_nat j = Some [OStr "Val: "; OInt (int_mul j 2)].
Proof.
  intros Hj Hmax.
  destruct (ctor_PrintData sz h) as (dm & h' & Hctor & Hprint); [lia|].
  eexists dm, h', _. split; [exact Hctor|]. split; [exact Hprint|]. split.
  - rewrite length_fmap, length_seqZ. lia.
  - rewrite list_lookup_fmap, lookup_seqZ_lt by lia.
    cbn [fmap option_fmap option_map]. rewrite Z2Nat.id by lia.
    by rewrite Z.add_0_l.
Qed.

(** C1, as stated, fails for a size above 2^30: [i * 2] is computed in
    [int], and for [i = 2^30] it is not 2^31.  With 2^30 + 1 elements the
    line of index 2^30 shows -2147483648. *)
Lemma data_manager_enumerate_overflow :
  0 < 1073741825 /\ is_int 1073741825 /\
  exists dm h out,
    data_manager_ctor 1073741825 ∅ = Some (dm, h) /\
    PrintData dm h = Some out /\
    out !! Z.to_nat 1073741824 = Some [OStr "Val: "; OInt (-2147483648)] /\
    -2147483648 <> 1073741824 * 2.
Proof.
  split; [lia|]. split; [unfold is_int, int_min, int_max; lia|].
  destruct (ctor_PrintData_lookup 1073741825 ∅ 1073741824)
    as (dm & h & out & Hctor & Hprint & _ & Hout);
    [lia | unfold int_max; lia |].
  exists dm, h, out. split; [exact Hctor|]. split; [exact Hprint|].
  split; [|lia].
  rewrite Hout. f_equal.
Qed.

(** C1, amended: for every size from 1 to 2^30, constructing a
    [data_manager] of that size and calling [PrintData] writes exactly
    [size] lines, and the line of index [i] shows [i * 2], for every [i]
    from 0 to [size - 1]. *)
Theorem data_manager_enumerate (sz : Z) (h : heap)
    (Hpos : 0 < sz) (Hmax : sz <= 1073741824) :
  exists dm h' out,
    data_manager_ctor sz h = Some (dm, h') /\
    PrintData dm h' = Some out /\
    Z.of_nat (length out) = sz /\
    forall i, 0 <= i < sz -> out !! Z.to_nat i = Some [OStr "Val: "; OInt (i * 2)].
Proof.
  destruct (ctor_PrintData sz h) as (dm & h' & Hctor & Hprint);
    [unfold int_max; lia|].
  eexists dm, h', _. split; [exact Hctor|]. split; [exact Hprint|]. split.
  - rewrite length_fmap, length_seqZ. lia.
  - intros i Hi. rewrite list_lookup_fmap, lookup_seqZ_lt by lia.
    cbn [fmap option_fmap option_map]. rewrite Z2Nat.id, Z.add_0_l by lia.
    unfold int_mul. rewrite wrap32_id; [done|].
    unfold is_int, int_min, int_max. lia.
Qed.

Lemma data_manager_enumerate_witness :
  0 < 3 /\ 3 <= 1073741824 /\
  exists dm h' out,
    data_manager_ctor 3 ∅ = Some (dm, h') /\
    PrintData dm h' = Some out /\
    Z.of_nat (length out) = 3 /\
    forall i, 0 <= i < 3 -> out !! Z.to_nat i = Some [OStr "Val: "; OInt (i * 2)].
Proof.
  split; [lia|]. split; [lia|]. apply (data_manager_enumerate 3 ∅); lia.
Defined.

Example data_manager_3 :
  (data_manager_ctor 3 ∅ ≫= fun '(dm, h) => PrintData dm h) =
  Some [[OStr "Val: "; OInt 0]; [OStr "Val: "; OInt 2]; [OStr "Val: "; OInt 4]].
Proof. by vm_compute. Qed.

(** Every instance leaves its array in the free store. *)
Lemma lifetime_leaks (sz : Z) (h : heap) :
  0 <= sz <= int_max ->
  exists h', lifetime sz h = Some h' /\ base.size h' = S (base.size h) /\ h ⊆ h'.
Proof.
  intros Hsz. destruct (data_manager_ctor_spec sz h Hsz) as (p & Hp & Hctor).
  eexists. unfold lifetime. rewrite Hctor. cbn. split; [done|]. split.
  - by apply map_size_insert_None.
  - by apply insert_subseteq.
Qed.

Lemma lifetimes_leak (sz : Z) (n : nat) : forall h : heap,
  0 <= sz <= int_max ->
  exists h', lifetimes n sz h = Some h' /\ base.size h' = (n + base.size h)%nat /\ h ⊆ h'.
Proof.
  induction n as [|n IH]; intros h Hsz; cbn [lifetimes].
  - by exists h.
  - destruct (lifetime_leaks sz h Hsz) as (h1 & -> & Hsize1 & Hsub1).
    cbn [mbind option_bind].
    destruct (IH h1 Hsz) as (h2 & -> & Hsize2 & Hsub2).
    exists h2. split; [done|]. split; [lia|]. by etrans.
Qed.

(** C7 on the code: after 1,000 instances of 10 elements have been
    constructed and destroyed in sequence, starting from an empty free
    store, 1,000 arrays are still allocated: none was released. *)
Theorem data_manager_1000_leaked :
  exists h : heap, lifetimes 1000 10 ∅ = Some h /\ base.size h = 1000%nat.
Proof.
  destruct (lifetimes_leak 10 1000 ∅) as (h & Hrun & Hsize & _);
    [unfold int_max; lia|].
  exists h. split; [exact Hrun|]. by rewrite Hsize, map_size_empty, Nat.add_0_r.
Qed.

(** ** The threads *)

(** *** The state after a step *)

Lemma thread_set_thread_eq t w s : thread t (set_thread t w s) = Some w.
Proof. by destruct t. Qed.

Lemma thread_set_thread_ne t t' w s :
  t <> t' -> thread t' (set_thread t w s) = thread t' s.
Proof. by destruct t, t'. Qed.

Lemma thread_emit t a e s : thread t (emit a e s) = thread t s.
Proof. by destruct t. Qed.

Lemma thread_set_mutex t m s : thread t (set_mutex m s) = thread t s.
Proof. by destruct t. Qed.

Lemma thread_set_count t v s : thread t (set_count v s) = thread t s.
Proof. by destruct t. Qed.

Lemma thread_set_main_pc t p s : thread t (set_main_pc p s) = thread t s.
Proof. by destruct t. Qed.

Lemma proj_app a l1 l2 : proj a (l1 ++ l2) = proj a l1 ++ proj a l2.
Proof. apply omap_app. Qed.

Lemma proj_snoc_eq a e l : proj a (l ++ [(a, e)]) = proj a l ++ [e].
Proof. rewrite proj_app. unfold proj at 3. cbn. by rewrite decide_True. Qed.

Lemma proj_snoc_ne a a' e l : a' <> a -> proj a (l ++ [(a', e)]) = proj a l.
Proof.
  intros Hne. rewrite proj_app. unfold proj at 3. cbn.
  rewrite decide_False by done. apply app_nil_r.
Qed.

Lemma proj_main_prints t (out : list line) :
  proj (W t) (map (fun l => (Main, EvPrint l)) out) = [].
Proof. induction out as [|l out IH]; [done|]. cbn. by rewrite decide_False. Qed.

Lemma iterations_snoc id c gs g :
  iterations id c (gs ++ [g]) =
  iterations id c gs ++ iteration id c (Z.of_nat (length gs)) g.
Proof.
  unfold iterations. rewrite imap_app, concat_app. cbn [imap concat].
  by rewrite Nat.add_0_r, app_nil_r.
Qed.

Lemma in_progress_unlocked id c p g g' :
  holds_lock p = false -> in_progress id c p g = in_progress id c p g'.
Proof. by destruct p. Qed.

Lemma run_app sched1 sched2 s : run (sched1 ++ sched2) s = run sched2 (run sched1 s).
Proof. revert s. induction sched1 as [|a sched1 IH]; intros s; [done|]. apply IH. Qed.

Lemma proj_events_eq t es l :
  proj (W t) (l ++ map (pair (W t)) es) = proj (W t) l ++ es.
Proof.
  rewrite proj_app. f_equal.
  induction es as [|e es IH]; [done|]. cbn. rewrite decide_True by done.
  f_equal. apply IH.
Qed.

Lemma proj_events_ne a a' es l :
  a' <> a -> proj a (l ++ map (pair a') es) = proj a l.
Proof.
  intros Hne. rewrite proj_app.
  assert (H : proj a (map (pair a') es) = []).
  { induction es as [|e es IH]; [done|]. cbn. by rewrite decide_False. }
  rewrite H. apply app_nil_r.
Qed.

Lemma has_returned_true t s :
  has_returned t s = true <-> exists w, thread t s = Some w /\ pc w = Returned.
Proof.
  unfold has_returned. split.
  - destruct (thread t s) as [w|]; [|done]. destruct (pc w) eqn:E; try done. eauto.
  - intros (w & -> & ->). done.
Qed.

Lemma has_returned_ext t s s' :
  thread t s' = thread t s -> has_returned t s' = has_returned t s.
Proof. unfold has_returned. by intros ->. Qed.

Lemma increments_range cfg0 s t w :
  worker_inv cfg0 s t w -> 0 <= increments (pc w) <= maxCount.
Proof.
  intros [_ _ Hr Hi _ _ _ _]. destruct (pc w); cbn in *; try lia;
    specialize (Hi eq_refl); lia.
Qed.

Lemma increments_completed p :
  increments p = completed p \/
  (increments p = completed p + 1 /\ holds_lock p = true).
Proof. destruct p; cbn; auto. Qed.

(** *** The invariant *)

(** The routine side conditions of a step of a worker. *)
Ltac worker_side :=
  first
    [ done
    | lia
    | unfold goto; by rewrite ?thread_emit, thread_set_thread_eq
    | let u := fresh "u" in
      let Hne := fresh "Hne" in
      intros u Hne; unfold goto;
      by rewrite ?thread_emit, thread_set_thread_ne, ?thread_set_mutex,
           ?thread_set_count
    | cbn; lia
    | cbn; by rewrite ?app_nil_r
    | idtac ].

Section Invariant.

Variables (c0 : Z) (cfg0 : Config).
Hypothesis Hc0 : int_min <= c0 /\ c0 + 2 * maxCount <= int_max.

Lemma inv_init out0 : inv c0 cfg0 (init c0 cfg0 out0).
Proof.
  split; cbn; try done.
  - by intros [] w.
  - intros t _. apply proj_main_prints.
  - lia.
Qed.

Lemma inv_count_range s :
  inv c0 cfg0 s -> c0 <= Global_count s <= c0 + 2 * maxCount.
Proof.
  intros Hinv. rewrite (inv_count _ _ _ Hinv).
  assert (H : forall t, 0 <= increments_of (thread t s) <= maxCount).
  { intros t. unfold increments_of. destruct (thread t s) as [w|] eqn:E; cbn.
    - eapply increments_range, inv_workers; eauto.
    - unfold maxCount. lia. }
  pose proof (H T1). pose proof (H T2). cbn [thread] in *. lia.
Qed.

(** A step of worker [t] that leaves it at [p'] after the events [es]. *)
Lemma inv_worker_update s s' t w p' es :
  inv c0 cfg0 s -> thread t s = Some w -> pc w <> Returned ->
  main_pc s' = main_pc s -> main_cfg s' = main_cfg s ->
  thread t s' = Some (mkWorker (ID w) (cfg w) p') ->
  (forall t', t <> t' -> thread t' s' = thread t' s) ->
  log s' = log s ++ map (pair (W t)) es ->
  (holds_lock p' = true <-> globalMutex s' = Some t) ->
  (forall t', t <> t' -> globalMutex s' = Some t' <-> globalMutex s = Some t') ->
  Global_count s' = Global_count s + (increments p' - increments (pc w)) ->
  (Global_count s' <> Global_count s -> globalMutex s = Some t) ->
  0 <= completed p' <= maxCount ->
  (holds_lock p' = true -> completed p' < maxCount) ->
  (forall i v, p' = AtStore i v -> v = Global_count s') ->
  (forall i, p' = AtWarn i -> 50 < Global_count s') ->
  (forall gs, Z.of_nat (length gs) = completed (pc w) ->
     exists gs', Z.of_nat (length gs') = completed p' /\
       (iterations (ID w) (cfg w) gs
          ++ in_progress (ID w) (cfg w) (pc w) (Global_count s)) ++ es =
       iterations (ID w) (cfg w) gs'
          ++ in_progress (ID w) (cfg w) p' (Global_count s')) ->
  inv c0 cfg0 s'.
Proof.
  intros Hinv Ht Hpc Hmpc Hmcfg Ht' Hother Hlog Hlock Hmutex Hcount Hchange
    Hrange Hinside Hread Hwarn Htrace.
  pose proof (inv_workers _ _ _ Hinv t w Ht) as Hw.
  assert (Hsame : forall u wu, t <> u -> thread u s = Some wu ->
            holds_lock (pc wu) = true -> Global_count s' = Global_count s).
  { intros u wu Hne Hu Hl. destruct (decide (Global_count s' = Global_count s)) as [|Hd];
      [done|]. apply Hchange in Hd.
    apply (wi_lock _ _ _ _ (inv_workers _ _ _ Hinv u wu Hu)) in Hl. congruence. }
  assert (Hnot : has_returned t s' = true -> has_returned t s = true -> False).
  { intros _ (w1 & Hw1 & Hr)%has_returned_true. congruence. }
  assert (Hnot' : has_returned t s = false).
  { destruct (has_returned t s) eqn:E; [|done].
    apply has_returned_true in E as (w1 & Hw1 & Hr). congruence. }
  split.
  - rewrite Hmcfg. apply (inv_cfg _ _ _ Hinv).
  - intros u wu Hu. destruct (decide (t = u)) as [<-|Hne].
    + rewrite Ht' in Hu. injection Hu as <-. split; cbn [ID cfg pc]; try done.
      * apply (wi_ID _ _ _ _ Hw).
      * apply (wi_cfg _ _ _ _ Hw).
      * destruct (wi_trace _ _ _ _ Hw) as (gs & Hlen & Hproj).
        destruct (Htrace gs Hlen) as (gs' & Hlen' & Heq).
        exists gs'. split; [done|]. by rewrite Hlog, proj_events_eq, Hproj.
    + rewrite (Hother _ Hne) in Hu.
      pose proof (inv_workers _ _ _ Hinv u wu Hu) as Hwu.
      split.
      * apply (wi_ID _ _ _ _ Hwu).
      * apply (wi_cfg _ _ _ _ Hwu).
      * apply (wi_range _ _ _ _ Hwu).
      * apply (wi_inside _ _ _ _ Hwu).
      * rewrite (Hmutex _ Hne). apply (wi_lock _ _ _ _ Hwu).
      * intros i v Hp. rewrite (Hsame u wu); [by eapply wi_read|done|done|].
        by rewrite Hp.
      * intros i Hp. rewrite (Hsame u wu); [by eapply wi_warn|done|done|].
        by rewrite Hp.
      * destruct (wi_trace _ _ _ _ Hwu) as (gs & Hlen & Hproj).
        exists gs. split; [done|].
        rewrite Hlog, proj_events_ne by congruence. rewrite Hproj. f_equal.
        destruct (holds_lock (pc wu)) eqn:Hl.
        -- by rewrite (Hsame u wu).
        -- by apply in_progress_unlocked.
  - intros u Hm. destruct (decide (t = u)) as [<-|Hne]; [by rewrite Ht'|].
    rewrite (Hother _ Hne). apply (inv_mutex _ _ _ Hinv). by apply Hmutex.
  - intros u Hn. destruct (decide (t = u)) as [<-|Hne]; [congruence|].
    rewrite Hlog, proj_events_ne by congruence.
    apply (inv_unborn _ _ _ Hinv). by rewrite <- (Hother _ Hne).
  - rewrite Hcount, (inv_count _ _ _ Hinv).
    destruct t.
    + change (t1 s') with (thread T1 s'). change (t2 s') with (thread T2 s').
      change (t1 s) with (thread T1 s).
      rewrite Ht', (Hother T2), Ht by done.
      unfold increments_of. cbn [from_option pc thread]. lia.
    + change (t1 s') with (thread T1 s'). change (t2 s') with (thread T2 s').
      change (t2 s) with (thread T2 s).
      rewrite Ht', (Hother T1), Ht by done.
      unfold increments_of. cbn [from_option pc thread]. lia.
  - pose proof (inv_main _ _ _ Hinv) as Hm. rewrite Hmpc.
    assert (Hsome : forall u, is_Some (thread u s) -> is_Some (thread u s')).
    { intros u Hs. destruct (decide (t = u)) as [<-|Hne]; [by rewrite Ht'|].
      by rewrite (Hother _ Hne). }
    assert (Hret : forall u, has_returned u s = true -> has_returned u s' = true).
    { intros u Hr. destruct (decide (t = u)) as [<-|Hne]; [congruence|].
      by rewrite (has_returned_ext u s s' (Hother _ Hne)). }
    destruct (main_pc s); destruct Hm as [Hm1 Hm2].
    + destruct t; cbn [thread] in Ht; congruence.
    + split; [by apply (Hsome T1)|]. destruct t; [|cbn [thread] in Ht; congruence].
      change (t2 s') with (thread T2 s'). by rewrite (Hother T2).
    + split; [by apply (Hsome T1) | by apply (Hsome T2)].
    + split; [by apply Hret | by apply (Hsome T2)].
    + split; by apply Hret.
    + split; by apply Hret.
  - rewrite Hmpc. intros Hm. pose proof (inv_main _ _ _ Hinv) as Hmain.
    rewrite Hm in Hmain. destruct Hmain. destruct t; congruence.
Qed.

Lemma worker_step_inv s t w s' :
  inv c0 cfg0 s -> thread t s = Some w -> worker_step t w s = Some s' ->
  inv c0 cfg0 s'.
Proof.
  intros Hinv Ht Hstep.
  pose proof (inv_workers _ _ _ Hinv t w Ht) as Hw.
  pose proof (inv_count_range s Hinv) as Hg.
  pose proof (increments_range _ _ _ _ Hw) as Hinc.
  assert (Hoth : forall u, 0 <= increments_of (thread u s) <= maxCount).
  { intros u. unfold increments_of. destruct (thread u s) as [wu|] eqn:E; cbn.
    - eapply increments_range, inv_workers; eauto.
    - unfold maxCount. lia. }
  assert (Hsum : Global_count s + (maxCount - increments (pc w)) <= c0 + 2 * maxCount).
  { rewrite (inv_count _ _ _ Hinv). pose proof (Hoth T1). pose proof (Hoth T2).
    destruct t; cbn [thread] in *; rewrite Ht in *; unfold increments_of in *;
      cbn [from_option] in *; lia. }
  destruct Hw as [HID Hcfg Hr Hin Hlk Hrd Hwn Htr].
  unfold worker_step in Hstep.
  destruct (pc w) as [i|i|i v|i|i|i|i|] eqn:Hp; cbn [completed holds_lock increments] in *.
  - (* the loop test and the lock *)
    destruct (Z.ltb_spec i maxCount).
    + destruct (globalMutex s) as [owner|] eqn:Hm; [done|]. injection Hstep as <-.
      apply (inv_worker_update s _ t w (AtLoad i) [EvAcquire]); rewrite ?Hp;
        cbn [completed holds_lock increments in_progress]; worker_side.
      * intros u Hne. cbn. rewrite Hm. split; congruence.
      * intros gs Hlen. exists gs. split; [done|]. by rewrite app_nil_r.
    + injection Hstep as <-.
      apply (inv_worker_update s _ t w Returned []); rewrite ?Hp;
        cbn [completed holds_lock increments in_progress]; worker_side.
      intros gs Hlen. exists gs. split; [lia|]. by rewrite !app_nil_r.
  - (* the read of Global_count *)
    injection Hstep as <-.
    apply (inv_worker_update s _ t w (AtStore i (Global_count s)) [EvLoad (Global_count s)]);
      rewrite ?Hp; cbn [completed holds_lock increments in_progress]; worker_side.
    + by intros ? ? [= _ <-].
    + intros gs Hlen. exists gs. split; [done|]. by rewrite <- app_assoc.
  - (* the write to Global_count *)
    injection Hstep as <-.
    rewrite (Hrd i v eq_refl) in *.
    assert (Hadd : int_add (Global_count s) 1 = Global_count s + 1).
    { apply int_add_1. unfold maxCount in *. lia. }
    rewrite Hadd.
    apply (inv_worker_update s _ t w (AtPrint i) [EvStore (Global_count s + 1)]);
      rewrite ?Hp; cbn [completed holds_lock increments in_progress]; worker_side.
    + intros _. by apply Hlk.
    + intros gs Hlen. exists gs. split; [done|]. rewrite <- app_assoc.
      cbn [app Global_count emit goto set_thread set_count].
      by replace (Global_count s + 1 - 1) with (Global_count s) by lia.
  - (* the status line *)
    injection Hstep as <-.
    apply (inv_worker_update s _ t w (AtCheck i) [EvPrint (status_line (ID w) i (cfg w))]);
      rewrite ?Hp; cbn [completed holds_lock increments in_progress]; worker_side.
    intros gs Hlen. exists gs. split; [done|]. by rewrite <- app_assoc.
  - (* the test of line 75 *)
    injection Hstep as <-.
    destruct (Z.ltb_spec 50 (Global_count s)) as [Hhigh|Hlow].
    + apply (inv_worker_update s _ t w (AtWarn i) [EvLoad (Global_count s)]);
        rewrite ?Hp; cbn [completed holds_lock increments in_progress]; worker_side.
      intros gs Hlen. exists gs. split; [done|]. by rewrite <- app_assoc.
    + apply (inv_worker_update s _ t w (AtUnlock i) [EvLoad (Global_count s)]);
        rewrite ?Hp; cbn [completed holds_lock increments in_progress]; worker_side.
      intros gs Hlen. exists gs. split; [done|]. rewrite <- app_assoc.
      unfold locked_part. cbn [Global_count emit goto set_thread].
      destruct (Z.ltb_spec 50 (Global_count s)); [lia|]. by rewrite app_nil_r.
  - (* the warning *)
    injection Hstep as <-.
    apply (inv_worker_update s _ t w (AtUnlock i) [EvPrint warning_line]);
      rewrite ?Hp; cbn [completed holds_lock increments in_progress]; worker_side.
    intros gs Hlen. exists gs. split; [done|]. rewrite <- app_assoc.
    unfold locked_part. cbn [Global_count emit goto set_thread].
    pose proof (Hwn i eq_refl).
    by destruct (Z.ltb_spec 50 (Global_count s)); [|lia].
  - (* the end of the scope of the lock, and i++ *)
    injection Hstep as <-.
    assert (Hi : int_add i 1 = i + 1).
    { apply int_add_1. specialize (Hin eq_refl). unfold int_min, int_max, maxCount in *. lia. }
    rewrite Hi.
    apply (inv_worker_update s _ t w (AtLoop (i + 1)) [EvRelease]);
      rewrite ?Hp; cbn [completed holds_lock increments in_progress]; worker_side.
    + intros u Hne. cbn. rewrite (proj1 Hlk eq_refl). split; congruence.
    + intros gs Hlen. exists (gs ++ [Global_count s]). split.
      * rewrite length_app. cbn. lia.
      * rewrite iterations_snoc, Hlen, app_nil_r, <- app_assoc. done.
  - done.
Qed.

(** A step of [main]: it starts threads and writes lines, and leaves
    [Global_count] and the mutex alone. *)
Lemma inv_main_update s s' e :
  inv c0 cfg0 s ->
  main_cfg s' = main_cfg s ->
  Global_count s' = Global_count s ->
  globalMutex s' = globalMutex s ->
  log s' = log s ++ map (pair Main) [e] ->
  (forall u, thread u s' = thread u s \/
     (thread u s = None /\
      thread u s' = Some (mkWorker (tid_ID u) (main_cfg s) (AtLoop 0)))) ->
  match main_pc s' with
  | MSpawn1 => t1 s' = None /\ t2 s' = None
  | MSpawn2 => is_Some (t1 s') /\ t2 s' = None
  | MJoin1 => is_Some (t1 s') /\ is_Some (t2 s')
  | MJoin2 => has_returned T1 s' = true /\ is_Some (t2 s')
  | MPrint | MReturn => has_returned T1 s' = true /\ has_returned T2 s' = true
  end ->
  (main_pc s' = MReturn ->
   e = EvPrint [OStr "Global_count = "; OInt (Global_count s)]) ->
  inv c0 cfg0 s'.
Proof.
  intros Hinv Hmcfg Hcount Hmutex Hlog Hthreads Hmain Hfinal.
  assert (Hproj : forall u, proj (W u) (log s') = proj (W u) (log s)).
  { intros u. by rewrite Hlog, proj_events_ne. }
  assert (Hincr : forall u, increments_of (thread u s') = increments_of (thread u s)).
  { intros u. destruct (Hthreads u) as [->|[-> ->]]; [done|]. done. }
  split.
  - rewrite Hmcfg. apply (inv_cfg _ _ _ Hinv).
  - intros u wu Hu. destruct (Hthreads u) as [Heq|[Hnone Hnew]].
    + rewrite Heq in Hu. pose proof (inv_workers _ _ _ Hinv u wu Hu) as Hwu.
      destruct Hwu as [HID Hcfg Hr Hin Hlk Hrd Hwn Htr].
      split; rewrite ?Hcount, ?Hmutex, ?Hproj; done.
    + rewrite Hnew in Hu. injection Hu as <-.
      split; cbn [ID cfg pc completed holds_lock]; try done.
      * apply (inv_cfg _ _ _ Hinv).
      * rewrite Hmutex. split; [done|]. intros Hm.
        apply (inv_mutex _ _ _ Hinv) in Hm. rewrite Hnone in Hm. by destruct Hm.
      * exists []. split; [done|]. rewrite Hproj. by apply (inv_unborn _ _ _ Hinv).
  - intros u Hm. rewrite Hmutex in Hm. apply (inv_mutex _ _ _ Hinv) in Hm.
    destruct (Hthreads u) as [->|[_ ->]]; [done|]. by eexists.
  - intros u Hu. rewrite Hproj. apply (inv_unborn _ _ _ Hinv).
    destruct (Hthreads u) as [<-|[_ Hnew]]; [done|]. congruence.
  - rewrite Hcount, (inv_count _ _ _ Hinv).
    pose proof (Hincr T1). pose proof (Hincr T2). cbn [thread] in *. lia.
  - done.
  - intros Hm. rewrite Hlog, (Hfinal Hm), Hcount. cbn [map]. apply last_snoc.
Qed.

Lemma main_step_inv s s' :
  inv c0 cfg0 s -> main_step s = Some s' -> inv c0 cfg0 s'.
Proof.
  intros Hinv Hstep. pose proof (inv_main _ _ _ Hinv) as Hmain.
  unfold main_step in Hstep.
  destruct (main_pc s) eqn:Hpc; destruct Hmain as [Hm1 Hm2].
  - injection Hstep as <-.
    apply (inv_main_update s _ (EvSpawn T1)); try done;
      first [ by intros [|]; [right|left] | cbn; by rewrite Hm2 ].
  - injection Hstep as <-.
    apply (inv_main_update s _ (EvSpawn T2)); try done;
      first [ by intros [|]; [left|right] | by cbn ].
  - destruct (has_returned T1 s) eqn:Hr; [|done]. injection Hstep as <-.
    apply (inv_main_update s _ (EvJoin T1)); try done. by left.
  - destruct (has_returned T2 s) eqn:Hr; [|done]. injection Hstep as <-.
    apply (inv_main_update s _ (EvJoin T2)); try done. by left.
  - injection Hstep as <-.
    apply (inv_main_update s _ (EvPrint [OStr "Global_count = "; OInt (Global_count s)]));
      try done. by left.
  - done.
Qed.

Lemma step_inv a s s' : inv c0 cfg0 s -> step a s = Some s' -> inv c0 cfg0 s'.
Proof.
  intros Hinv Hstep. destruct a as [|t]; cbn [step] in Hstep.
  - by eapply main_step_inv.
  - destruct (thread t s) as [w|] eqn:Ht; [|done]. by eapply worker_step_inv.
Qed.

Lemma run_inv sched : forall s, inv c0 cfg0 s -> inv c0 cfg0 (run sched s).
Proof.
  induction sched as [|a sched IH]; intros s Hinv; [done|].
  cbn [run]. apply IH. destruct (step a s) as [s'|] eqn:Hstep; [|done].
  by eapply step_inv.
Qed.

(** Every state the program reaches satisfies the invariant. *)
Lemma reachable_inv out0 sched : inv c0 cfg0 (run sched (init c0 cfg0 out0)).
Proof. apply run_inv, inv_init. Qed.

(** *** No deadlock, and termination *)

Lemma holder_can_step s t w :
  holds_lock (pc w) = true -> is_Some (worker_step t w s).
Proof. unfold worker_step. destruct (pc w); by eauto. Qed.

Lemma worker_can_step s t w :
  inv c0 cfg0 s -> thread t s = Some w -> pc w <> Returned ->
  is_Some (step (W t) s) \/
  exists u, u <> t /\ is_Some (step (W u) s).
Proof.
  intros Hinv Ht Hpc. cbn [step]. rewrite Ht. cbn [mbind option_bind].
  destruct (holds_lock (pc w)) eqn:Hl; [left; by apply holder_can_step|].
  destruct (pc w) as [i| | | | | | |] eqn:Hp; try done.
  unfold worker_step. rewrite Hp.
  destruct (i <? maxCount); [|left; by eauto].
  destruct (globalMutex s) as [u|] eqn:Hm; [|left; by eauto].
  right. exists u.
  destruct (inv_mutex _ _ _ Hinv u Hm) as [wu Hu].
  pose proof (inv_workers _ _ _ Hinv u wu Hu) as Hwu.
  apply (wi_lock _ _ _ _ Hwu) in Hm as Hlu. split.
  - intros ->. rewrite Ht in Hu. injection Hu as <-. rewrite Hp in Hlu. done.
  - rewrite Hu. cbn [mbind option_bind]. destruct (pc wu); by eauto.
Qed.

(** Unless [main] has reached its [return], someone can take a step. *)
Lemma progress s :
  inv c0 cfg0 s -> main_pc s <> MReturn -> exists a, is_Some (step a s).
Proof.
  intros Hinv Hpc. pose proof (inv_main _ _ _ Hinv) as Hmain.
  assert (Hwait : forall t, is_Some (thread t s) -> has_returned t s = false ->
            exists a, is_Some (step a s)).
  { intros t [w Ht] Hr.
    destruct (worker_can_step s t w Hinv Ht) as [?|(u & _ & ?)]; eauto.
    intros Hp. unfold has_returned in Hr. by rewrite Ht, Hp in Hr. }
  destruct (main_pc s) eqn:Hm; try done; destruct Hmain as [Hm1 Hm2].
  - exists Main. unfold step, main_step. rewrite Hm. by eauto.
  - exists Main. unfold step, main_step. rewrite Hm. by eauto.
  - destruct (has_returned T1 s) eqn:Hr.
    + exists Main. unfold step, main_step. rewrite Hm, Hr. by eauto.
    + by apply (Hwait T1).
  - destruct (has_returned T2 s) eqn:Hr.
    + exists Main. unfold step, main_step. rewrite Hm, Hr. by eauto.
    + by apply (Hwait T2).
  - exists Main. unfold step, main_step. rewrite Hm. by eauto.
Qed.

Lemma step_decreases a s s' :
  inv c0 cfg0 s -> step a s = Some s' -> (steps_left s' < steps_left s)%nat.
Proof.
  intros Hinv Hstep. destruct a as [|t]; cbn [step] in Hstep.
  - pose proof (inv_main _ _ _ Hinv) as Hmain. unfold main_step in Hstep.
    destruct (main_pc s) eqn:Hm; destruct Hmain as [Hm1 Hm2];
      repeat match type of Hstep with
             | context [has_returned ?t s] => destruct (has_returned t s); [|done]
             end;
      try done; injection Hstep as <-; unfold steps_left;
      cbn [main_pc t1 t2 set_main_pc spawn emit set_thread from_option pc
           steps_left_main steps_left_pc];
      rewrite ?Hm, ?Hm1, ?Hm2; cbn [from_option steps_left_main];
      unfold maxCount; lia.
  - destruct (thread t s) as [w|] eqn:Ht; [|done]. cbn [mbind option_bind] in Hstep.
    pose proof (inv_workers _ _ _ Hinv t w Ht) as [_ _ Hr Hin _ _ _ _].
    unfold worker_step in Hstep.
    destruct (pc w) as [i|i|i v|i|i|i|i|] eqn:Hp; cbn [completed holds_lock] in *;
      try specialize (Hin eq_refl);
      try rewrite (int_add_1 i) in Hstep by (unfold int_min, int_max, maxCount in *; lia);
      repeat match type of Hstep with
             | context [Z.ltb ?x ?y] => destruct (Z.ltb_spec x y)
             | context [globalMutex s] => destruct (globalMutex s); [done|]
             end;
      try done;
      injection Hstep as <-; unfold steps_left, goto; destruct t; cbn [thread] in Ht;
      cbn [main_pc t1 t2 emit set_thread set_mutex set_count from_option pc];
      rewrite Ht; cbn [from_option]; rewrite Hp; cbn [steps_left_pc];
      unfold maxCount in *; lia.
Qed.

(** From every state it reaches the program can run to the [return] of
    [main]. *)
Lemma can_finish s :
  inv c0 cfg0 s -> exists sched, main_pc (run sched s) = MReturn.
Proof.
  remember (steps_left s) as n eqn:Hn. revert s Hn.
  induction n as [n IH] using lt_wf_ind. intros s -> Hinv.
  destruct (decide (main_pc s = MReturn)) as [|Hpc]; [by exists []|].
  destruct (progress s Hinv Hpc) as (a & s' & Hstep).
  destruct (IH (steps_left s') (step_decreases a s s' Hinv Hstep) s' eq_refl)
    as [sched Hsched]; [by eapply step_inv|].
  exists (a :: sched). cbn [run]. by rewrite Hstep.
Qed.

End Invariant.

(** *** What a step writes to the log *)

Lemma snoc_neq {A} (l : list A) (x : A) : l <> l ++ [x].
Proof.
  intros H. apply (f_equal length) in H. rewrite length_app in H. cbn in H. lia.
Qed.

Lemma worker_step_emits t w s s' e :
  worker_step t w s = Some s' -> log s' = log s ++ [(W t, e)] ->
  match pc w with
  | AtLoop _ => e = EvAcquire
  | AtLoad _ | AtCheck _ => e = EvLoad (Global_count s)
  | AtStore _ v => e = EvStore (int_add v 1)
  | AtPrint i => e = EvPrint (status_line (ID w) i (cfg w))
  | AtWarn _ => e = EvPrint warning_line
  | AtUnlock _ => e = EvRelease
  | Returned => False
  end.
Proof.
  unfold worker_step. intros Hstep Hlog.
  destruct (pc w) as [i|i|i v|i|i|i|i|]; try done;
    repeat match type of Hstep with
           | context [Z.ltb ?x ?y] => destruct (Z.ltb x y)
           | context [globalMutex s] => destruct (globalMutex s); [done|]
           end;
    injection Hstep as <-; cbn [log emit goto set_thread set_mutex set_count] in Hlog;
    try (by apply snoc_neq in Hlog);
    apply app_inj_tail in Hlog as [_ [= <-]]; done.
Qed.

Lemma main_unfold sched :
  main sched = Some (run sched (init 0 main_config main_lines)).
Proof.
  unfold main, main_lines. assert (H : is_Some main_prefix) by (vm_compute; eauto).
  by destruct H as [[out0 h] ->].
Qed.

Lemma main_reaches sched s :
  main sched = Some s -> s = run sched (init 0 main_config main_lines).
Proof. rewrite main_unfold. by intros [= <-]. Qed.

Lemma main_defined sched : is_Some (main sched).
Proof. rewrite main_unfold. eauto. Qed.

Lemma main_range : int_min <= 0 /\ 0 + 2 * maxCount <= int_max.
Proof. unfold int_min, int_max, maxCount. lia. Qed.

Lemma main_inv sched s : main sched = Some s -> inv 0 main_config s.
Proof.
  intros ->%main_reaches. apply reachable_inv, main_range.
Qed.

(** ** The claims on the threads *)

Lemma returned_increments t s :
  has_returned t s = true -> increments_of (thread t s) = maxCount.
Proof. intros (w & Hw & Hp)%has_returned_true. unfold increments_of. by rewrite Hw; cbn; rewrite Hp. Qed.

Lemma cout_last s l :
  last (log s) = Some (Main, EvPrint l) -> last (cout s) = Some l.
Proof.
  intros [l' Hl]%last_Some. unfold cout. rewrite Hl, omap_app. cbn.
  apply last_snoc.
Qed.

(** C2: under every interleaving the program runs; once both workers have
    returned (so once [main] has joined them) [Global_count] is 20; the
    last line [main] writes is "Global_count = 20"; and from wherever the
    interleaving has taken it the program can run to the [return] of
    [main]: the mutex never leaves it stuck. *)
Theorem main_final_count (sched : list actor) :
  exists s, main sched = Some s /\
    (has_returned T1 s = true -> has_returned T2 s = true -> Global_count s = 20) /\
    (main_pc s = MReturn ->
     Global_count s = 20 /\
     last (cout s) = Some [OStr "Global_count = "; OInt 20]) /\
    (exists sched', main_pc (run sched' s) = MReturn).
Proof.
  destruct (main_defined sched) as [s Hs]. exists s. split; [done|].
  pose proof (main_inv sched s Hs) as Hinv.
  assert (Hboth : has_returned T1 s = true -> has_returned T2 s = true ->
            Global_count s = 20).
  { intros H1 H2. rewrite (inv_count _ _ _ Hinv).
    change (t1 s) with (thread T1 s). change (t2 s) with (thread T2 s).
    by rewrite !returned_increments. }
  split; [done|]. split.
  - intros Hpc. pose proof (inv_main _ _ _ Hinv) as Hmain. rewrite Hpc in Hmain.
    destruct Hmain as [H1 H2]. split; [by apply Hboth|].
    apply cout_last. rewrite (inv_final _ _ _ Hinv Hpc). by rewrite Hboth.
  - by apply (can_finish 0 main_config main_range).
Qed.

Lemma main_final_count_witness :
  exists s, main sched_alternating = Some s /\ main_pc s = MReturn /\
    Global_count s = 20 /\ last (cout s) = Some [OStr "Global_count = "; OInt 20].
Proof.
  destruct (main_final_count sched_alternating) as (s & Hs & _ & Hfinal & _).
  exists s. split; [exact Hs|].
  assert (Hpc : main_pc s = MReturn).
  { vm_compute in Hs. injection Hs as <-. reflexivity. }
  split; [exact Hpc | exact (Hfinal Hpc)].
Defined.

Example main_sequential :
  (fun s => (main_pc s, Global_count s)) <$> main sched_sequential = Some (MReturn, 20).
Proof. by vm_compute. Qed.



Lemma warning_in_iteration id c i g :
  EvPrint warning_line ∈ iteration id c i g <-> 50 < g.
Proof.
  unfold iteration, locked_part, status_line, warning_line.
  destruct (Z.ltb_spec 50 g) as [Hhigh|Hlow]; cbn [app]; rewrite !elem_of_cons, elem_of_nil.
  - split; [done|]. intros _. do 5 right. by left.
  - split; [|lia]. intros H. repeat (destruct H as [H|H]; [discriminate H|]). done.
Qed.



Example warnings_from_45 :
  cout (run sched_first_check (init 45 main_config [])) =
    [status_line 1 0 main_config] /\
  pc <$> thread T1 (run sched_first_check (init 45 main_config []))
    = Some (AtUnlock 0) /\
  pc <$> thread T1 (run sched_first_check (init 50 main_config []))
    = Some (AtWarn 0) /\
  cout (run (sched_first_check ++ [W T1]) (init 50 main_config [])) =
    [status_line 1 0 main_config; warning_line].
Proof. by vm_compute. Qed.

(** C9: in every run, the step of a worker that writes "High load
    warning!" is taken with the mutex in the hands of that worker, and
    leaves it there: the worker is then at the end of the scope of its
    [lock_guard], and the mutex is released by its next step. *)
Theorem warning_under_lock (c0 : Z) (cfg0 : Config) (out0 : list line)
    (sched : list actor) (t : tid) (s' : state)
    (Hc0 : int_min <= c0 /\ c0 + 2 * maxCount <= int_max)
    (Hstep : step (W t) (run sched (init c0 cfg0 out0)) = Some s')
    (Hwarn : log s' = log (run sched (init c0 cfg0 out0)) ++ [(W t, EvPrint warning_line)]) :
  globalMutex (run sched (init c0 cfg0 out0)) = Some t /\
  globalMutex s' = Some t /\
  (exists w i, thread t s' = Some w /\ pc w = AtUnlock i) /\
  (exists s'', step (W t) s' = Some s'' /\ globalMutex s'' = None /\
     log s'' = log s' ++ [(W t, EvRelease)]).
Proof.
  set (s := run sched (init c0 cfg0 out0)) in *.
  pose proof (reachable_inv c0 cfg0 Hc0 out0 sched) as Hinv. fold s in Hinv.
  cbn [step] in Hstep. destruct (thread t s) as [w|] eqn:Hw; [|done].
  cbn [mbind option_bind] in Hstep.
  pose proof (worker_step_emits t w s s' _ Hstep Hwarn) as He.
  pose proof (inv_workers _ _ _ Hinv t w Hw) as Hwi.
  destruct (pc w) as [i|i|i v|i|i|i|i|] eqn:Hp; try done.
  assert (Hm : globalMutex s = Some t).
  { apply (wi_lock _ _ _ _ Hwi). by rewrite Hp. }
  unfold worker_step in Hstep. rewrite Hp in Hstep. injection Hstep as <-.
  set (s1 := emit (W t) (EvPrint warning_line) (goto t w (AtUnlock i) s)).
  assert (Ht1 : thread t s1 = Some (mkWorker (ID w) (cfg w) (AtUnlock i))).
  { unfold s1, goto. by rewrite thread_emit, thread_set_thread_eq. }
  split; [done|]. split; [done|]. split.
  - by exists (mkWorker (ID w) (cfg w) (AtUnlock i)), i.
  - eexists. split.
    + cbn [step]. rewrite Ht1. cbn [mbind option_bind]. unfold worker_step.
      cbn [pc]. reflexivity.
    + done.
Qed.

Lemma warning_under_lock_witness :
  globalMutex (run sched_first_check (init 50 main_config [])) = Some T1.
Proof.
  assert (Hc0 : int_min <= 50 /\ 50 + 2 * maxCount <= int_max)
    by (unfold int_min, int_max, maxCount; lia).
  refine (proj1 (warning_under_lock 50 main_config [] sched_first_check T1
            (run (sched_first_check ++ [W T1]) (init 50 main_config []))
            Hc0 _ _)); by vm_compute.
Defined.

(** *** The counter and the iterations *)

Lemma thread_ahead c0 cfg0 s u :
  inv c0 cfg0 s ->
  increments_of (thread u s) = completed_of (thread u s) \/
  (increments_of (thread u s) = completed_of (thread u s) + 1 /\
   globalMutex s = Some u).
Proof.
  intros Hinv. unfold increments_of, completed_of.
  destruct (thread u s) as [w|] eqn:Hw; cbn [from_option]; [|by left].
  destruct (increments_completed (pc w)) as [?|[? Hl]]; [by left|right].
  split; [done|]. by apply (wi_lock _ _ _ _ (inv_workers _ _ _ Hinv u w Hw)).
Qed.

Lemma count_completed c0 cfg0 s :
  inv c0 cfg0 s ->
  c0 + completed_total s <= Global_count s <= c0 + completed_total s + 1 /\
  (globalMutex s = None -> Global_count s = c0 + completed_total s).
Proof.
  intros Hinv. rewrite (inv_count _ _ _ Hinv). unfold completed_total.
  change (t1 s) with (thread T1 s). change (t2 s) with (thread T2 s).
  destruct (thread_ahead c0 cfg0 s T1 Hinv) as [->|[-> H1]],
           (thread_ahead c0 cfg0 s T2 Hinv) as [->|[-> H2]];
    try (split; [lia|intros; try congruence; lia]).
  congruence.
Qed.

Lemma step_count c0 cfg0 a s s' :
  int_min <= c0 /\ c0 + 2 * maxCount <= int_max ->
  inv c0 cfg0 s -> step a s = Some s' ->
  Global_count s' = Global_count s \/ Global_count s' = Global_count s + 1.
Proof.
  intros Hc0 Hinv Hstep. destruct a as [|t]; cbn [step] in Hstep.
  - left. unfold main_step in Hstep.
    destruct (main_pc s);
      repeat match type of Hstep with
             | context [has_returned ?t s] => destruct (has_returned t s); [|done]
             end;
      try done; by injection Hstep as <-.
  - destruct (thread t s) as [w|] eqn:Hw; [|done]. cbn [mbind option_bind] in Hstep.
    pose proof (inv_workers _ _ _ Hinv t w Hw) as Hwi.
    pose proof (inv_count_range c0 cfg0 s Hinv) as Hg.
    pose proof (count_completed c0 cfg0 s Hinv) as [Hcc _].
    unfold worker_step in Hstep.
    destruct (pc w) as [i|i|i v|i|i|i|i|] eqn:Hp;
      repeat match type of Hstep with
             | context [Z.ltb ?x ?y] => destruct (Z.ltb x y)
             | context [globalMutex s] => destruct (globalMutex s); [done|]
             end;
      try done; injection Hstep as <-; try (by left).
    right. rewrite (wi_read _ _ _ _ Hwi i v Hp). cbn. apply int_add_1.
    assert (Hlt : Global_count s < c0 + 2 * maxCount); [|unfold maxCount in *; lia].
    rewrite (inv_count _ _ _ Hinv).
    assert (Ho : forall x, 0 <= increments_of (thread x s) <= maxCount).
    { intros x. unfold increments_of. destruct (thread x s) as [wx|] eqn:E; cbn.
      - eapply increments_range, inv_workers; eauto.
      - unfold maxCount. lia. }
    pose proof (Ho T1). pose proof (Ho T2).
    assert (Hself : increments_of (thread t s) < maxCount).
    { unfold increments_of. rewrite Hw. cbn. rewrite Hp. cbn.
      pose proof (wi_inside _ _ _ _ Hwi) as Hin. rewrite Hp in Hin. by apply Hin. }
    destruct t; cbn [thread] in *; lia.
Qed.

Lemma run_count_mono c0 cfg0 sched : forall s,
  int_min <= c0 /\ c0 + 2 * maxCount <= int_max ->
  inv c0 cfg0 s -> Global_count s <= Global_count (run sched s).
Proof.
  induction sched as [|a sched IH]; intros s Hc0 Hinv; [done|]. cbn [run].
  destruct (step a s) as [s'|] eqn:Hstep; unfold default; cbn [from_option id];
    [|by apply IH].
  pose proof (step_count c0 cfg0 a s s' Hc0 Hinv Hstep).
  pose proof (IH s' Hc0 (step_inv c0 cfg0 Hc0 a s s' Hinv Hstep)). lia.
Qed.

(** C10, as stated, fails: a worker adds 1 at the start of the loop body,
    before it writes its line and long before the iteration is over.  After
    [main] has started [t1] and [t1] has locked the mutex, read the counter
    and written it back, [Global_count] is 1 and no iteration is
    complete. *)
Lemma counter_ahead_of_completed :
  exists s, main [Main; W T1; W T1; W T1] = Some s /\
    Global_count s = 1 /\ completed_total s = 0 /\
    pc <$> t1 s = Some (AtPrint 0).
Proof.
  destruct (main_defined [Main; W T1; W T1; W T1]) as [s Hs].
  exists s. split; [exact Hs|]. vm_compute in Hs. injection Hs as <-. by vm_compute.
Qed.

(** C10, amended: [Global_count] starts at 0 and only the write of line 69
    changes it, by adding 1, so that it never decreases during a run; at
    every moment it is the number of times the workers have executed line
    69, which is the number of iterations completed so far, plus one while
    a worker is between its increment and the end of that iteration: it is
    the number of completed iterations whenever the mutex is free. *)
Theorem counter_never_decreases (sched sched' : list actor) (s s' : state)
    (Hrun : main sched = Some s) (Hrun' : main (sched ++ sched') = Some s') :
  (forall s0, main [] = Some s0 -> Global_count s0 = 0) /\
  (forall a s1, step a s = Some s1 ->
     Global_count s1 = Global_count s \/ Global_count s1 = Global_count s + 1) /\
  Global_count s <= Global_count s' /\
  Global_count s = increments_of (t1 s) + increments_of (t2 s) /\
  completed_total s <= Global_count s <= completed_total s + 1 /\
  (globalMutex s = None -> Global_count s = completed_total s).
Proof.
  pose proof (main_inv sched s Hrun) as Hinv.
  split; [|split; [|split; [|split]]].
  - by intros s0 ->%main_reaches.
  - intros a s1. apply (step_count 0 main_config a s s1 main_range Hinv).
  - apply main_reaches in Hrun as ->. apply main_reaches in Hrun' as ->.
    rewrite run_app.
    apply (run_count_mono 0 main_config); [apply main_range|done].
  - rewrite (inv_count _ _ _ Hinv). lia.
  - pose proof (count_completed 0 main_config s Hinv) as [H1 H2].
    split; [lia|]. intros Hm. rewrite (H2 Hm). lia.
Qed.

Lemma counter_never_decreases_witness :
  main [Main; W T1; W T1] = Some (run [Main; W T1; W T1] (init 0 main_config main_lines)) /\
  Global_count (run [Main; W T1; W T1] (init 0 main_config main_lines)) <=
  Global_count (run ([Main; W T1; W T1] ++ [W T1]) (init 0 main_config main_lines)).
Proof.
  assert (Hs : main [Main; W T1; W T1] =
               Some (run [Main; W T1; W T1] (init 0 main_config main_lines)))
    by (vm_compute; reflexivity).
  assert (Hs' : main ([Main; W T1; W T1] ++ [W T1]) =
                Some (run ([Main; W T1; W T1] ++ [W T1]) (init 0 main_config main_lines)))
    by (vm_compute; reflexivity).
  split; [exact Hs|].
  exact (proj1 (proj2 (proj2 (counter_never_decreases _ _ _ _ Hs Hs')))).
Defined.

(** *** The copies of the configuration *)

Lemma set_thread_comm t u w wu s :
  t <> u -> set_thread t w (set_thread u wu s) = set_thread u wu (set_thread t w s).
Proof. by destruct t, u. Qed.

Lemma update_cfg_other t u f s : t <> u -> thread u (update_cfg t f s) = thread u s.
Proof.
  intros Hne. unfold update_cfg. destruct (thread t s); [|done].
  by apply thread_set_thread_ne.
Qed.

(** A write to the [cfg] of worker [t] commutes with a step of another
    worker [u]. *)
Lemma update_cfg_step t u f s :
  t <> u -> step (W u) (update_cfg t f s) = update_cfg t f <$> step (W u) s.
Proof.
  intros Hne. cbn [step]. rewrite (update_cfg_other t u f s Hne).
  destruct (thread u s) as [wu|] eqn:Hu; [|done]. cbn [mbind option_bind].
  unfold update_cfg. destruct (thread t s) as [w|] eqn:Ht.
  - unfold worker_step.
    destruct (pc wu) as [i|i|i v|i|i|i|i|]; cbn [globalMutex Global_count set_thread];
      repeat match goal with
             | |- context [Z.ltb ?x ?y] => destruct (Z.ltb x y)
             | |- context [globalMutex s] => destruct (globalMutex s)
             end;
      try done; cbn [fmap option_fmap option_map]; f_equal;
      unfold goto;
      rewrite ?thread_emit, (thread_set_thread_ne u t) by done;
      rewrite ?thread_set_mutex, ?thread_set_count, Ht;
      by destruct t, u.
  - destruct (worker_step u wu s) as [s'|] eqn:Hstep; [|done].
    cbn [fmap option_fmap option_map]. f_equal.
    assert (Ht' : thread t s' = None); [|by rewrite Ht'].
    unfold worker_step in Hstep.
    destruct (pc wu) as [i|i|i v|i|i|i|i|];
      repeat match type of Hstep with
             | context [Z.ltb ?x ?y] => destruct (Z.ltb x y)
             | context [globalMutex s] => destruct (globalMutex s); [done|]
             end;
      try done; injection Hstep as <-; unfold goto;
      by rewrite ?thread_emit, (thread_set_thread_ne u t), ?thread_set_mutex,
           ?thread_set_count.
Qed.

(** C8: in every run, the [cfg] of a worker is a copy of the [cfg] of
    [main], made when the thread is started, and is an object of the
    worker's own: a write to any member of it (to [HostName], say) leaves
    the [cfg] of [main] and the [cfg] of the other worker as they are, and
    the other worker goes on exactly as it would have. *)
Theorem config_copies_independent (sched : list actor) (s : state)
    (t u : tid) (f : Config -> Config) (Hrun : main sched = Some s) (Hne : t <> u) :
  main_cfg s = main_config /\
  (forall w, thread t s = Some w -> cfg w = main_cfg s) /\
  (forall w, thread u s = Some w -> cfg w = main_cfg s) /\
  main_cfg (update_cfg t f s) = main_cfg s /\
  thread u (update_cfg t f s) = thread u s /\
  (forall w, thread t s = Some w ->
     cfg <$> thread t (update_cfg t f s) = Some (f (cfg w))) /\
  step (W u) (update_cfg t f s) = update_cfg t f <$> step (W u) s.
Proof.
  pose proof (main_inv sched s Hrun) as Hinv.
  pose proof (inv_cfg _ _ _ Hinv) as Hcfg.
  split; [done|]. split; [|split; [|split; [|split; [|split]]]].
  - intros w Hw. rewrite Hcfg. apply (wi_cfg _ _ _ _ (inv_workers _ _ _ Hinv t w Hw)).
  - intros w Hw. rewrite Hcfg. apply (wi_cfg _ _ _ _ (inv_workers _ _ _ Hinv u w Hw)).
  - unfold update_cfg. by destruct (thread t s).
  - by apply update_cfg_other.
  - intros w Hw. unfold update_cfg. rewrite Hw. by rewrite thread_set_thread_eq.
  - by apply update_cfg_step.
Qed.

Lemma config_copies_independent_witness :
  let s := run [Main; Main] (init 0 main_config main_lines) in
  let s' := update_cfg T1 (set_HostName "elsewhere") s in
  main [Main; Main] = Some s /\ T1 <> T2 /\
  main_cfg s' = main_config /\
  cfg <$> thread T2 s' = Some main_config /\
  cfg <$> thread T1 s' = Some (set_HostName "elsewhere" main_config).
Proof.
  intros s s'.
  assert (Hs : main [Main; Main] = Some s) by (vm_compute; reflexivity).
  assert (Hne : T1 <> T2) by discriminate.
  destruct (config_copies_independent [Main; Main] s T1 T2
              (set_HostName "elsewhere") Hs Hne)
    as (Hm & _ & _ & Hm' & Hu & _ & _).
  split; [exact Hs|]. split; [exact Hne|]. split; [|split].
  - unfold s'. rewrite Hm'. exact Hm.
  - unfold s'. rewrite Hu. vm_compute. reflexivity.
  - vm_compute. reflexivity.
Defined.

(** * Part III: further properties of the code *)

(** ** [calculateTotal] on all inputs *)

Lemma wrap32_congr z : (wrap32 z - z) mod 4294967296 = 0.
Proof.
  unfold wrap32.
  replace ((z + 2147483648) mod 4294967296 - 2147483648 - z)
    with (- ((z + 2147483648) / 4294967296) * 4294967296).
  - apply Z_mod_mult.
  - pose proof (Z_div_mod_eq_full (z + 2147483648) 4294967296). lia.
Qed.

(** X1: on every input [calculateTotal] returns an [int] congruent to the
    sum of its arguments modulo 2^32, and writes the "Large total" line,
    with the value it returns, exactly when that value exceeds 100. *)
Theorem calculateTotal_modular (A B C D : Z) :
  is_int (calculateTotal A B C D).1 /\
  ((calculateTotal A B C D).1 - (A + B + C + D)) mod 4294967296 = 0 /\
  (calculateTotal A B C D).2 =
    if 100 <? (calculateTotal A B C D).1
    then [[OStr "Large total: "; OInt (calculateTotal A B C D).1]] else [].
Proof.
  rewrite calculateTotal_report, calculateTotal_wrap.
  split; [apply wrap32_is_int|]. split; [apply wrap32_congr|done].
Qed.

(** X2: the order of the arguments of [calculateTotal] does not matter,
    overflow or not: exchanging two neighbours changes neither the value
    returned nor what is written. *)
Theorem calculateTotal_symmetric (A B C D : Z) :
  calculateTotal B A C D = calculateTotal A B C D /\
  calculateTotal A C B D = calculateTotal A B C D /\
  calculateTotal A B D C = calculateTotal A B C D.
Proof.
  assert (H : forall a b c d a' b' c' d',
            a + b + c + d = a' + b' + c' + d' ->
            calculateTotal a b c d = calculateTotal a' b' c' d').
  { intros a b c d a' b' c' d' Hsum.
    rewrite (surjective_pairing (calculateTotal a b c d)),
            (surjective_pairing (calculateTotal a' b' c' d')).
    by rewrite !calculateTotal_wrap, !calculateTotal_report, Hsum. }
  repeat split; apply H; lia.
Qed.

(** ** [data_manager] on all sizes and all stores *)

(** X3: for an [int] size, a negative size makes the constructor fail.
    Whenever a construction completes, the size was not negative, the
    object records it, and [PrintData] then writes one line per element,
    the line of index [i] showing [i * 2] as an [int]; with size 0 nothing
    is written. *)
Theorem data_manager_any_size (sz : Z) (h : heap) (Hint : is_int sz) :
  (sz < 0 -> data_manager_ctor sz h = None) /\
  (forall dm h', data_manager_ctor sz h = Some (dm, h') ->
   0 <= sz /\
   size dm = sz /\
   exists out,
     PrintData dm h' = Some out /\
     Z.of_nat (length out) = sz /\
     (sz = 0 -> out = []) /\
     forall i, 0 <= i < sz ->
       out !! Z.to_nat i = Some [OStr "Val: "; OInt (wrap32 (i * 2))]).
Proof.
  destruct Hint as [Hlo Hhi].
  assert (Hneg : sz < 0 -> data_manager_ctor sz h = None).
  { intros Hneg. unfold data_manager_ctor, new_array.
    by destruct (Z.ltb_spec sz 0); [|lia]. }
  split; [done|]. intros dm h' Hdone.
  destruct (Z.lt_ge_cases sz 0) as [Hlt|Hpos]; [by rewrite (Hneg Hlt) in Hdone|].
  destruct (data_manager_ctor_spec sz h) as (p & _ & Hctor); [lia|].
  destruct (ctor_PrintData sz h) as (dm' & h'' & Hctor' & Hprint); [lia|].
  rewrite Hdone in Hctor, Hctor'. injection Hctor' as <- <-.
  injection Hctor as Hdm Hh. split; [done|]. split; [by rewrite Hdm|].
  eexists. split; [exact Hprint|]. split; [|split].
  - rewrite length_fmap, length_seqZ. lia.
  - by intros ->.
  - intros i Hi. rewrite list_lookup_fmap, lookup_seqZ_lt by lia.
    cbn [fmap option_fmap option_map]. by rewrite Z2Nat.id, Z.add_0_l by lia.
Qed.

Lemma data_manager_any_size_witness :
  is_int 3 /\ is_int 0 /\ is_int (-1) /\
  PrintData (mk_data_manager 1 3) {[ 1%positive := [Some 0; Some 2; Some 4] ]} =
    Some [[OStr "Val: "; OInt 0]; [OStr "Val: "; OInt 2]; [OStr "Val: "; OInt 4]] /\
  PrintData (mk_data_manager 1 0) {[ 1%positive := [] ]} = Some [] /\
  data_manager_ctor (-1) ∅ = None.
Proof.
  assert (H3 : is_int 3) by (unfold is_int, int_min, int_max; lia).
  assert (H0 : is_int 0) by (unfold is_int, int_min, int_max; lia).
  assert (Hm : is_int (-1)) by (unfold is_int, int_min, int_max; lia).
  assert (Hc3 : data_manager_ctor 3 ∅ =
                Some (mk_data_manager 1 3, {[ 1%positive := [Some 0; Some 2; Some 4] ]}))
    by (vm_compute; reflexivity).
  assert (Hc0 : data_manager_ctor 0 ∅ =
                Some (mk_data_manager 1 0, {[ 1%positive := [] ]}))
    by (vm_compute; reflexivity).
  split; [exact H3|]. split; [exact H0|]. split; [exact Hm|]. split; [|split].
  - destruct (proj2 (data_manager_any_size 3 ∅ H3) _ _ Hc3)
      as (_ & _ & out & Hprint & _ & _ & Hout).
    rewrite Hprint. f_equal.
    assert (Hlen : PrintData (mk_data_manager 1 3)
                     {[ 1%positive := [Some 0; Some 2; Some 4] ]} =
                   Some [[OStr "Val: "; OInt 0]; [OStr "Val: "; OInt 2];
                         [OStr "Val: "; OInt 4]]) by (vm_compute; reflexivity).
    rewrite Hlen in Hprint. by injection Hprint as <-.
  - destruct (proj2 (data_manager_any_size 0 ∅ H0) _ _ Hc0)
      as (_ & _ & out & Hprint & _ & Hnil & _).
    by rewrite Hprint, (Hnil eq_refl).
  - apply (proj1 (data_manager_any_size (-1) ∅ Hm)). lia.
Defined.

(** X4: a successful construction allocates one array, at an address
    that was free, with [sz] elements, all of them assigned; every array
    that was in the free store is left as it was. *)
Theorem data_manager_ctor_fresh (sz : Z) (h h' : heap) (dm : data_manager)
    (Hint : is_int sz) (Hctor : data_manager_ctor sz h = Some (dm, h')) :
  h !! rawBuffer dm = None /\
  (forall p, p <> rawBuffer dm -> h' !! p = h !! p) /\
  exists blk, h' !! rawBuffer dm = Some blk /\
    Z.of_nat (length blk) = sz /\ Forall is_Some blk.
Proof.
  destruct Hint as [Hlo Hhi].
  destruct (Z.lt_ge_cases sz 0) as [Hneg|Hpos].
  { unfold data_manager_ctor, new_array in Hctor.
    by destruct (Z.ltb_spec sz 0); [|lia]. }
  destruct (data_manager_ctor_spec sz h) as (p & Hfree & Hspec); [lia|].
  rewrite Hspec in Hctor. injection Hctor as <- <-. cbn [rawBuffer].
  split; [done|]. split.
  - intros q Hq. by rewrite lookup_insert_ne.
  - eexists. split; [by rewrite lookup_insert_eq|]. split.
    + rewrite length_fmap, length_seqZ. lia.
    + apply Forall_fmap, Forall_forall. intros j _. by eexists.
Qed.

Lemma data_manager_ctor_fresh_witness :
  exists dm h', data_manager_ctor 2 ∅ = Some (dm, h') /\
    (∅ : heap) !! rawBuffer dm = None.
Proof.
  assert (Hint : is_int 2) by (unfold is_int, int_min, int_max; lia).
  assert (Hctor : data_manager_ctor 2 ∅ =
                  Some (mk_data_manager 1 2, {[ 1%positive := [Some 0; Some 2] ]}))
    by (vm_compute; reflexivity).
  eexists _, _. split; [exact Hctor|].
  exact (proj1 (data_manager_ctor_fresh 2 ∅ _ _ Hint Hctor)).
Defined.

Lemma PrintData_loop_reads (dm : data_manager) (h : heap) (blk : block)
    (vs : list Z) (k : nat) :
  h !! rawBuffer dm = Some blk ->
  size dm = Z.of_nat (length vs) -> size dm <= int_max ->
  (forall j v, vs !! j = Some v -> blk !! j = Some (Some v)) ->
  forall fuel i out,
  0 <= i -> size dm = i + Z.of_nat k -> (k < fuel)%nat ->
  PrintData_loop fuel i dm h out =
    Some (out ++ ((fun v => [OStr "Val: "; OInt v]) <$> drop (Z.to_nat i) vs)).
Proof.
  intros Hp Hlen Hmax Hblk. induction k as [|k IH]; intros fuel i out Hi Hsz Hfuel;
    (destruct fuel as [|fuel]; [lia|]); cbn [PrintData_loop];
    rewrite to_size_t_id by lia.
  - destruct (Z.ltb_spec i (size dm)); [lia|].
    rewrite drop_ge by lia. cbn. by rewrite app_nil_r.
  - destruct (Z.ltb_spec i (size dm)); [|lia].
    destruct (lookup_lt_is_Some_2 vs (Z.to_nat i)) as [v Hv]; [lia|].
    unfold load. rewrite Hp. cbn [mbind option_bind].
    rewrite bool_decide_eq_true_2 by lia.
    rewrite (Hblk _ _ Hv). cbn [mjoin option_join mbind option_bind].
    rewrite int_add_1 by (unfold int_min, int_max in *; lia).
    rewrite IH by lia.
    rewrite (drop_S vs v (Z.to_nat i) Hv). cbn [fmap list_fmap].
    rewrite <- app_assoc. cbn [app].
    by replace (Z.to_nat (i + 1)) with (S (Z.to_nat i)) by lia.
Qed.

(** X5: for a [size] of at most INT_MAX (beyond it the [int] loop
    variable of line 49 overflows), [PrintData] reads the first [size]
    elements of the array [rawBuffer] points to and nothing else: when
    these are assigned, it writes them, one line each and in order,
    whatever the rest of the array and of the free store holds. *)
Theorem PrintData_first_elements (dm : data_manager) (h : heap) (blk : block)
    (vs : list Z)
    (Hmax : size dm <= int_max)
    (Hblk : h !! rawBuffer dm = Some blk)
    (Hlen : Z.of_nat (length vs) = size dm)
    (Hinit : take (length vs) blk = Some <$> vs) :
  PrintData dm h = Some ((fun v => [OStr "Val: "; OInt v]) <$> vs).
Proof.
  unfold PrintData.
  rewrite (PrintData_loop_reads dm h blk vs (Z.to_nat (size dm))); try done; try lia.
  intros j v Hv.
  assert (Hj : (j < length vs)%nat) by (by eapply lookup_lt_Some).
  rewrite <- (lookup_take_lt blk (length vs) j Hj), Hinit, list_lookup_fmap, Hv. done.
Qed.

Lemma PrintData_first_elements_witness :
  PrintData (mk_data_manager 7 2) {[ 7%positive := [Some 5; Some 6; None] ]} =
    Some [[OStr "Val: "; OInt 5]; [OStr "Val: "; OInt 6]].
Proof.
  apply (PrintData_first_elements (mk_data_manager 7 2)
           {[ 7%positive := [Some 5; Some 6; None] ]} [Some 5; Some 6; None] [5; 6]).
  - unfold int_max. cbn. lia.
  - by vm_compute.
  - reflexivity.
  - reflexivity.
Defined.

Lemma PrintData_loop_overrun (dm : data_manager) (h : heap) (blk : block) (k : nat) :
  h !! rawBuffer dm = Some blk ->
  Z.of_nat (length blk) < size dm -> Z.of_nat (length blk) <= int_max ->
  forall fuel i out,
  0 <= i -> Z.of_nat (length blk) = i + Z.of_nat k ->
  PrintData_loop fuel i dm h out = None.
Proof.
  intros Hp Hlen Hmax. induction k as [|k IH]; intros fuel i out Hi Hk;
    (destruct fuel as [|fuel]; [done|]); cbn [PrintData_loop];
    rewrite to_size_t_id by lia;
    (destruct (Z.ltb_spec i (size dm)); [|lia]);
    unfold load; rewrite Hp; cbn [mbind option_bind];
    rewrite bool_decide_eq_true_2 by lia.
  - by rewrite lookup_ge_None_2 by lia.
  - destruct (blk !! Z.to_nat i) as [[v|]|]; try done.
    cbn [mjoin option_join mbind option_bind].
    rewrite int_add_1 by (unfold int_min, int_max in *; lia).
    apply IH; lia.
Qed.

(** X6: the members are public, and nothing ties [size] to the array: when
    [size], whatever its value, exceeds the number of elements of the array
    [rawBuffer] points to (an array of at most INT_MAX elements, as every
    array the constructor makes), [PrintData] reads past its end and has no
    defined result; the same when [rawBuffer] points to no array and [size]
    is not 0. *)
Theorem PrintData_overrun (dm : data_manager) (h : heap)
    (Hbad : match h !! rawBuffer dm with
            | Some blk => Z.of_nat (length blk) < size dm /\
                          Z.of_nat (length blk) <= int_max
            | None => 0 < size dm
            end) :
  PrintData dm h = None.
Proof.
  unfold PrintData. destruct (h !! rawBuffer dm) as [blk|] eqn:Hp.
  - destruct Hbad as [Hlen Hmax].
    by apply (PrintData_loop_overrun dm h blk (length blk)); try lia.
  - cbn [PrintData_loop]. change (to_size_t 0) with 0.
    destruct (Z.ltb_spec 0 (size dm)); [|lia]. unfold load. by rewrite Hp.
Qed.

Lemma PrintData_overrun_witness :
  PrintData (mk_data_manager 7 3) {[ 7%positive := [Some 5; Some 6] ]} = None /\
  PrintData (mk_data_manager 7 18446744073709551615)
    {[ 7%positive := [Some 5; Some 6] ]} = None /\
  PrintData (mk_data_manager 9 4294967296) {[ 7%positive := [Some 5; Some 6] ]} = None.
Proof.
  split; [|split]; apply PrintData_overrun.
  - replace ({[ 7%positive := [Some 5; Some 6] ]} !! rawBuffer (mk_data_manager 7 3))
      with (Some [Some 5; Some 6] : option block) by (by vm_compute).
    unfold int_max. cbn. lia.
  - replace ({[ 7%positive := [Some 5; Some 6] ]}
               !! rawBuffer (mk_data_manager 7 18446744073709551615))
      with (Some [Some 5; Some 6] : option block) by (by vm_compute).
    unfold int_max. cbn. lia.
  - replace ({[ 7%positive := [Some 5; Some 6] ]}
               !! rawBuffer (mk_data_manager 9 4294967296))
      with (None : option block) by (by vm_compute).
    cbn. lia.
Defined.

Lemma lifetime_inv (sz : Z) (h h' : heap) :
  is_int sz -> lifetime sz h = Some h' ->
  base.size h' = S (base.size h) /\ h ⊆ h'.
Proof.
  intros [Hlo Hhi] Hrun.
  destruct (Z.lt_ge_cases sz 0) as [Hneg|Hpos].
  { unfold lifetime, data_manager_ctor, new_array in Hrun.
    by destruct (Z.ltb_spec sz 0); [|lia]. }
  destruct (lifetime_leaks sz h) as (h1 & Hrun1 & Hsize & Hsub); [lia|].
  rewrite Hrun in Hrun1. by injection Hrun1 as <-.
Qed.

(** X7: no instance ever gives its array back, and none touches the array
    of another: after instances of any [int] sizes, the same or not, have
    been constructed and destroyed one after the other, from any free
    store, each construction having completed, the store holds one more
    array per instance than it did, and every array it held is still
    there, unchanged. *)
Theorem lifetimes_keep_everything (szs : list Z) (h h' : heap)
    (Hint : Forall is_int szs) (Hrun : lifetimes_of szs h = Some h') :
  base.size h' = (length szs + base.size h)%nat /\
  forall p blk, h !! p = Some blk -> h' !! p = Some blk.
Proof.
  revert h Hrun. induction Hint as [|sz szs Hsz Hint IH]; intros h Hrun;
    cbn [lifetimes_of] in Hrun.
  - by injection Hrun as <-.
  - destruct (lifetime sz h) as [h1|] eqn:Hlife; [|done].
    cbn [mbind option_bind] in Hrun.
    destruct (lifetime_inv sz h h1 Hsz Hlife) as [Hsize Hsub].
    destruct (IH h1 Hrun) as [Hsize' Hkeep]. split.
    + rewrite Hsize', Hsize. cbn [length]. lia.
    + intros p blk Hp. apply Hkeep. by eapply lookup_weaken.
Qed.

Lemma lifetimes_keep_everything_witness :
  exists h', lifetimes_of [2; 0; 3] {[ 5%positive := [Some 1] ]} = Some h' /\
    base.size h' = 4%nat /\ h' !! 5%positive = Some [Some 1].
Proof.
  assert (Hint : Forall is_int [2; 0; 3]).
  { repeat constructor; unfold int_min, int_max; cbn; lia. }
  destruct (lifetimes_of [2; 0; 3] {[ 5%positive := [Some 1] ]}) as [h'|] eqn:Hrun;
    [|by vm_compute in Hrun].
  destruct (lifetimes_keep_everything [2; 0; 3] {[ 5%positive := [Some 1] ]} h' Hint Hrun)
    as [Hsize Hkeep].
  exists h'. split; [reflexivity|]. split.
  - rewrite Hsize. by vm_compute.
  - apply Hkeep. by vm_compute.
Defined.

(** ** The threads: exclusion, races, progress *)

Lemma main_step_emits s s' :
  main_step s = Some s' ->
  exists e, log s' = log s ++ [(Main, e)] /\
    match main_pc s with
    | MSpawn1 => e = EvSpawn T1
    | MSpawn2 => e = EvSpawn T2
    | MJoin1 => e = EvJoin T1
    | MJoin2 => e = EvJoin T2
    | MPrint => e = EvPrint [OStr "Global_count = "; OInt (Global_count s)]
    | MReturn => False
    end.
Proof.
  unfold main_step. intros Hstep.
  destruct (main_pc s);
    repeat match type of Hstep with
           | context [has_returned ?t s] => destruct (has_returned t s); [|done]
           end;
    try done; injection Hstep as <-; by eexists.
Qed.

Lemma worker_step_log t w s s' :
  worker_step t w s = Some s' ->
  log s' = log s \/ exists e, log s' = log s ++ [(W t, e)].
Proof.
  unfold worker_step. intros Hstep.
  destruct (pc w) as [i|i|i v|i|i|i|i|];
    repeat match type of Hstep with
           | context [Z.ltb ?x ?y] => destruct (Z.ltb x y)
           | context [globalMutex s] => destruct (globalMutex s); [done|]
           end;
    try done; injection Hstep as <-; (by left) || (right; by eexists).
Qed.

Lemma mutex_free_when_returned c0 cfg0 s :
  inv c0 cfg0 s ->
  has_returned T1 s = true -> has_returned T2 s = true -> globalMutex s = None.
Proof.
  intros Hinv H1 H2. destruct (globalMutex s) as [u|] eqn:Hm; [|done].
  destruct (inv_mutex _ _ _ Hinv u Hm) as [w Hw].
  apply (wi_lock _ _ _ _ (inv_workers _ _ _ Hinv u w Hw)) in Hm.
  assert (Hr : has_returned u s = true) by (by destruct u).
  apply has_returned_true in Hr as (w' & Hw' & Hp).
  rewrite Hw in Hw'. injection Hw' as <-. by rewrite Hp in Hm.
Qed.

(** X8: in every run the two workers are never inside the scope of their
    [lock_guard] at the same time, and [globalMutex] is owned by a worker
    exactly while that worker is inside that scope. *)
Theorem mutual_exclusion (c0 : Z) (cfg0 : Config) (out0 : list line)
    (sched : list actor)
    (Hc0 : int_min <= c0 /\ c0 + 2 * maxCount <= int_max) :
  (forall w1 w2,
     thread T1 (run sched (init c0 cfg0 out0)) = Some w1 ->
     thread T2 (run sched (init c0 cfg0 out0)) = Some w2 ->
     holds_lock (pc w1) && holds_lock (pc w2) = false) /\
  (forall t,
     globalMutex (run sched (init c0 cfg0 out0)) = Some t <->
     exists w, thread t (run sched (init c0 cfg0 out0)) = Some w /\
               holds_lock (pc w) = true).
Proof.
  pose proof (reachable_inv c0 cfg0 Hc0 out0 sched) as Hinv.
  set (s := run sched (init c0 cfg0 out0)) in *. split.
  - intros w1 w2 H1 H2.
    destruct (holds_lock (pc w1)) eqn:Hl1, (holds_lock (pc w2)) eqn:Hl2; try done.
    apply (wi_lock _ _ _ _ (inv_workers _ _ _ Hinv T1 w1 H1)) in Hl1.
    apply (wi_lock _ _ _ _ (inv_workers _ _ _ Hinv T2 w2 H2)) in Hl2.
    congruence.
  - intros t. split.
    + intros Hm. destruct (inv_mutex _ _ _ Hinv t Hm) as [w Hw]. exists w.
      split; [done|]. by apply (wi_lock _ _ _ _ (inv_workers _ _ _ Hinv t w Hw)).
    + intros (w & Hw & Hl).
      by apply (wi_lock _ _ _ _ (inv_workers _ _ _ Hinv t w Hw)).
Qed.

Lemma mutual_exclusion_witness :
  globalMutex (run sched_first_check (init 0 main_config [])) = Some T1 <->
  exists w, thread T1 (run sched_first_check (init 0 main_config [])) = Some w /\
            holds_lock (pc w) = true.
Proof. exact (proj2 (mutual_exclusion 0 main_config [] sched_first_check main_range) T1). Defined.

(** X9: in every run, a worker reads or writes [Global_count] only while
    it owns [globalMutex], and what it reads is the current value: the
    accesses of the two workers never race. *)
Theorem counter_access_under_lock (c0 : Z) (cfg0 : Config) (out0 : list line)
    (sched : list actor) (t : tid) (s' : state) (e : event)
    (Hc0 : int_min <= c0 /\ c0 + 2 * maxCount <= int_max)
    (Hstep : step (W t) (run sched (init c0 cfg0 out0)) = Some s')
    (Hlog : log s' = log (run sched (init c0 cfg0 out0)) ++ [(W t, e)])
    (Hacc : exists v, e = EvLoad v \/ e = EvStore v) :
  globalMutex (run sched (init c0 cfg0 out0)) = Some t /\
  globalMutex s' = Some t /\
  (forall v, e = EvLoad v -> v = Global_count (run sched (init c0 cfg0 out0))) /\
  (forall v, e = EvStore v -> Global_count s' = v).
Proof.
  pose proof (reachable_inv c0 cfg0 Hc0 out0 sched) as Hinv.
  set (s := run sched (init c0 cfg0 out0)) in *.
  cbn [step] in Hstep. destruct (thread t s) as [w|] eqn:Hw; [|done].
  cbn [mbind option_bind] in Hstep.
  pose proof (worker_step_emits t w s s' e Hstep Hlog) as He.
  pose proof (inv_workers _ _ _ Hinv t w Hw) as Hwi.
  destruct Hacc as [v Hv].
  assert (Hm : globalMutex s = Some t).
  { apply (wi_lock _ _ _ _ Hwi).
    destruct (pc w); try done; subst e; by destruct Hv. }
  split; [done|].
  unfold worker_step in Hstep.
  destruct (pc w) as [i|i|i v0|i|i|i|i|]; try done;
    try (subst e; by destruct Hv);
    injection Hstep as <-; subst e; (split; [done|]);
    split; intros ? [= <-]; done.
Qed.

Lemma counter_access_under_lock_witness :
  globalMutex (run [Main; W T1] (init 0 main_config [])) = Some T1.
Proof.
  refine (proj1 (counter_access_under_lock 0 main_config [] [Main; W T1] T1
            (run [Main; W T1; W T1] (init 0 main_config [])) (EvLoad 0)
            main_range _ _ _)); [by vm_compute | by vm_compute | eauto].
Defined.

(** X10: the program never deadlocks.  In every run, as long as [main]
    has not reached its [return] someone can take a step; a worker that has
    not returned and cannot move is waiting for [globalMutex], which the
    other worker owns, and that one can move; once [main] is at its
    [return] nobody moves any more. *)
Theorem no_deadlock (c0 : Z) (cfg0 : Config) (out0 : list line)
    (sched : list actor)
    (Hc0 : int_min <= c0 /\ c0 + 2 * maxCount <= int_max) :
  (main_pc (run sched (init c0 cfg0 out0)) <> MReturn ->
   exists a, is_Some (step a (run sched (init c0 cfg0 out0)))) /\
  (forall t w,
     thread t (run sched (init c0 cfg0 out0)) = Some w -> pc w <> Returned ->
     step (W t) (run sched (init c0 cfg0 out0)) = None ->
     exists u, u <> t /\ globalMutex (run sched (init c0 cfg0 out0)) = Some u /\
               is_Some (step (W u) (run sched (init c0 cfg0 out0)))) /\
  (main_pc (run sched (init c0 cfg0 out0)) = MReturn ->
   forall a, step a (run sched (init c0 cfg0 out0)) = None).
Proof.
  pose proof (reachable_inv c0 cfg0 Hc0 out0 sched) as Hinv.
  set (s := run sched (init c0 cfg0 out0)) in *.
  split; [by apply (progress c0 cfg0)|]. split.
  - intros t w Hw Hp Hstuck. cbn [step] in Hstuck. rewrite Hw in Hstuck.
    cbn [mbind option_bind] in Hstuck. unfold worker_step in Hstuck.
    destruct (pc w) as [i|i|i v|i|i|i|i|] eqn:Hpc; try done.
    destruct (i <? maxCount); [|done].
    destruct (globalMutex s) as [u|] eqn:Hm; [|done].
    destruct (inv_mutex _ _ _ Hinv u Hm) as [wu Hu].
    apply (wi_lock _ _ _ _ (inv_workers _ _ _ Hinv u wu Hu)) in Hm as Hl.
    exists u. split; [|split; [done|]].
    + intros ->. rewrite Hw in Hu. injection Hu as <-. by rewrite Hpc in Hl.
    + cbn [step]. rewrite Hu. cbn [mbind option_bind]. by apply holder_can_step.
  - intros Hpc a. pose proof (inv_main _ _ _ Hinv) as Hmain. rewrite Hpc in Hmain.
    destruct a as [|t]; cbn [step].
    + unfold main_step. by rewrite Hpc.
    + assert (Hr : has_returned t s = true) by (destruct t; tauto).
      apply has_returned_true in Hr as (w & -> & Hp). cbn [mbind option_bind].
      unfold worker_step. by rewrite Hp.
Qed.

Lemma no_deadlock_witness :
  exists u, u <> T2 /\
    globalMutex (run [Main; Main; W T1] (init 0 main_config [])) = Some u /\
    is_Some (step (W u) (run [Main; Main; W T1] (init 0 main_config []))).
Proof.
  refine (proj1 (proj2 (no_deadlock 0 main_config [] [Main; Main; W T1] main_range))
            T2 (mkWorker 2 main_config (AtLoop 0)) _ _ _);
    [by vm_compute | discriminate | by vm_compute].
Defined.

Lemma moves_bound c0 cfg0 sched : forall s,
  int_min <= c0 /\ c0 + 2 * maxCount <= int_max ->
  inv c0 cfg0 s ->
  (moves sched s + steps_left (run sched s) <= steps_left s)%nat.
Proof.
  induction sched as [|a sched IH]; intros s Hc0 Hinv; cbn [moves run]; [lia|].
  destruct (step a s) as [s'|] eqn:Hstep; unfold default; cbn [from_option id].
  - pose proof (step_decreases c0 cfg0 a s s' Hinv Hstep).
    pose proof (IH s' Hc0 (step_inv c0 cfg0 Hc0 a s s' Hinv Hstep)). lia.
  - by apply IH.
Qed.

(** X11: the program terminates under every schedule: however the
    scheduler picks, [main] and the two workers take no more than 149 steps
    altogether, and every step that is taken brings the end nearer. *)
Theorem bounded_steps (c0 : Z) (cfg0 : Config) (out0 : list line)
    (sched : list actor)
    (Hc0 : int_min <= c0 /\ c0 + 2 * maxCount <= int_max) :
  (moves sched (init c0 cfg0 out0) <= 149)%nat /\
  (moves sched (init c0 cfg0 out0)
     + steps_left (run sched (init c0 cfg0 out0)) <= 149)%nat /\
  (forall a s', step a (run sched (init c0 cfg0 out0)) = Some s' ->
     (steps_left s' < steps_left (run sched (init c0 cfg0 out0)))%nat).
Proof.
  pose proof (moves_bound c0 cfg0 sched _ Hc0 (inv_init c0 cfg0 out0)) as Hb.
  change (steps_left (init c0 cfg0 out0)) with 149%nat in Hb.
  split; [lia|]. split; [done|].
  intros a s'. apply (step_decreases c0 cfg0), reachable_inv, Hc0.
Qed.

Lemma bounded_steps_witness :
  (moves sched_alternating (init 0 main_config []) <= 149)%nat.
Proof. exact (proj1 (bounded_steps 0 main_config [] sched_alternating main_range)). Defined.

Example moves_alternating :
  moves sched_alternating (init 0 main_config []) = 127%nat /\
  moves sched_alternating (init 45 main_config []) = 142%nat.
Proof. by vm_compute. Qed.

(** X12: in every run, [main] writes its "Global_count = ..." line only
    when both workers have returned and [globalMutex] is free; the value
    shown is the initial value plus 20, and after that step nobody moves. *)
Theorem main_line_after_join (c0 : Z) (cfg0 : Config) (out0 : list line)
    (sched : list actor) (s' : state) (l : line)
    (Hc0 : int_min <= c0 /\ c0 + 2 * maxCount <= int_max)
    (Hstep : step Main (run sched (init c0 cfg0 out0)) = Some s')
    (Hlog : log s' = log (run sched (init c0 cfg0 out0)) ++ [(Main, EvPrint l)]) :
  has_returned T1 (run sched (init c0 cfg0 out0)) = true /\
  has_returned T2 (run sched (init c0 cfg0 out0)) = true /\
  globalMutex (run sched (init c0 cfg0 out0)) = None /\
  l = [OStr "Global_count = "; OInt (c0 + 20)] /\
  forall a, step a s' = None.
Proof.
  pose proof (reachable_inv c0 cfg0 Hc0 out0 sched) as Hinv.
  set (s := run sched (init c0 cfg0 out0)) in *. cbn [step] in Hstep.
  destruct (main_step_emits s s' Hstep) as (e & Hlog' & He).
  rewrite Hlog in Hlog'. apply app_inj_tail in Hlog' as [_ [= <-]].
  pose proof (inv_main _ _ _ Hinv) as Hmain.
  destruct (main_pc s) eqn:Hpc; try done. destruct Hmain as [H1 H2].
  split; [done|]. split; [done|].
  split; [by apply (mutex_free_when_returned c0 cfg0)|]. split.
  - injection He as ->. rewrite (inv_count _ _ _ Hinv).
    change (t1 s) with (thread T1 s). change (t2 s) with (thread T2 s).
    rewrite !returned_increments by done. unfold maxCount.
    by replace (c0 + 10 + 10) with (c0 + 20) by lia.
  - unfold main_step in Hstep. rewrite Hpc in Hstep. injection Hstep as <-.
    intros [|t]; cbn [step]; [done|].
    rewrite thread_set_main_pc, thread_emit.
    assert (Hr : has_returned t s = true) by (by destruct t).
    apply has_returned_true in Hr as (w & -> & Hp). cbn [mbind option_bind].
    unfold worker_step. by rewrite Hp.
Qed.

Lemma main_line_after_join_witness :
  globalMutex (run (take 284 sched_alternating) (init 0 main_config [])) = None.
Proof.
  refine (proj1 (proj2 (proj2
    (main_line_after_join 0 main_config [] (take 284 sched_alternating)
       (run (take 285 sched_alternating) (init 0 main_config []))
       [OStr "Global_count = "; OInt 20] main_range _ _)))); by vm_compute.
Defined.

(** X13: in every run [Global_count] stays between its initial value and
    that value plus 20, and the loop variable of a worker between 0 and 10:
    no addition of the program overflows. *)
Theorem counter_bounded (c0 : Z) (cfg0 : Config) (out0 : list line)
    (sched : list actor)
    (Hc0 : int_min <= c0 /\ c0 + 2 * maxCount <= int_max) :
  c0 <= Global_count (run sched (init c0 cfg0 out0)) <= c0 + 20 /\
  is_int (Global_count (run sched (init c0 cfg0 out0))) /\
  forall t w, thread t (run sched (init c0 cfg0 out0)) = Some w ->
    0 <= completed (pc w) <= 10 /\
    (forall i v, pc w = AtStore i v -> int_add v 1 = v + 1).
Proof.
  pose proof (reachable_inv c0 cfg0 Hc0 out0 sched) as Hinv.
  set (s := run sched (init c0 cfg0 out0)) in *.
  pose proof (inv_count_range c0 cfg0 s Hinv) as Hg.
  split; [unfold maxCount in Hg; lia|]. split.
  { unfold is_int, maxCount in *. lia. }
  intros t w Hw. pose proof (inv_workers _ _ _ Hinv t w Hw) as Hwi.
  split; [apply (wi_range _ _ _ _ Hwi)|].
  intros i v Hp. rewrite (wi_read _ _ _ _ Hwi i v Hp).
  assert (Hstep : worker_step t w s =
            Some (emit (W t) (EvStore (int_add (Global_count s) 1))
                    (goto t w (AtPrint i) (set_count (int_add (Global_count s) 1) s)))).
  { unfold worker_step. by rewrite Hp, (wi_read _ _ _ _ Hwi i v Hp). }
  assert (Hstep' : step (W t) s = Some (emit (W t) (EvStore (int_add (Global_count s) 1))
                    (goto t w (AtPrint i) (set_count (int_add (Global_count s) 1) s)))).
  { cbn [step]. by rewrite Hw. }
  pose proof (step_inv c0 cfg0 Hc0 _ _ _ Hinv Hstep') as Hinv'.
  destruct (step_count c0 cfg0 _ _ _ Hc0 Hinv Hstep') as [Heq|Heq]; cbn in Heq; [|done].
  exfalso.
  pose proof (inv_count _ _ _ Hinv) as Hc. pose proof (inv_count _ _ _ Hinv') as Hc'.
  cbn in Hc'. rewrite Heq in Hc'.
  destruct t; cbn [thread] in Hw; rewrite Hw in Hc; unfold increments_of in *;
    cbn in Hc, Hc'; rewrite Hp in Hc; cbn in Hc; lia.
Qed.

Lemma counter_bounded_witness :
  0 <= Global_count (run sched_alternating (init 0 main_config [])) <= 0 + 20.
Proof. exact (proj1 (counter_bounded 0 main_config [] sched_alternating main_range)). Defined.

(** ** What the program writes *)

Lemma cout_init c0 cfg0 out0 : cout (init c0 cfg0 out0) = out0.
Proof.
  unfold cout, init. cbn [log].
  induction out0 as [|l out0 IH]; [done|]. cbn. by rewrite IH.
Qed.

Lemma cout_snoc s s' a e :
  log s' = log s ++ [(a, e)] ->
  cout s' = cout s ++ match e with EvPrint l => [l] | _ => [] end.
Proof. intros Hlog. unfold cout. rewrite Hlog, omap_app. by destruct e. Qed.

Lemma cout_same s s' : log s' = log s -> cout s' = cout s.
Proof. unfold cout. by intros ->. Qed.

Lemma step_keeps_quiet c0 cfg0 a s s' :
  c0 + 2 * maxCount <= 50 ->
  inv c0 cfg0 s -> step a s = Some s' ->
  warning_line ∉ cout s -> warning_line ∉ cout s'.
Proof.
  intros Hlow Hinv Hstep Hq. destruct a as [|t]; cbn [step] in Hstep.
  - destruct (main_step_emits s s' Hstep) as (e & Hlog & He).
    rewrite (cout_snoc s s' Main e Hlog).
    destruct (main_pc s); try done; subst e; rewrite ?app_nil_r; try done.
    rewrite elem_of_app, list_elem_of_singleton. by intros [?|?].
  - destruct (thread t s) as [w|] eqn:Hw; [|done]. cbn [mbind option_bind] in Hstep.
    destruct (worker_step_log t w s s' Hstep) as [Hlog|[e Hlog]];
      [by rewrite (cout_same s s' Hlog)|].
    rewrite (cout_snoc s s' (W t) e Hlog).
    pose proof (worker_step_emits t w s s' e Hstep Hlog) as He.
    pose proof (inv_workers _ _ _ Hinv t w Hw) as Hwi.
    destruct (pc w) as [i|i|i v|i|i|i|i|] eqn:Hp; try done; subst e;
      rewrite ?app_nil_r; try done.
    + rewrite elem_of_app, list_elem_of_singleton. by intros [?|?].
    + exfalso. pose proof (wi_warn _ _ _ _ Hwi i Hp).
      assert (Hb : Global_count s <= c0 + 2 * maxCount).
      { rewrite (inv_count _ _ _ Hinv).
        assert (Ho : forall x, increments_of (thread x s) <= maxCount).
        { intros x. unfold increments_of. destruct (thread x s) as [wx|] eqn:E; cbn.
          - eapply increments_range, inv_workers; eauto.
          - unfold maxCount. lia. }
        pose proof (Ho T1). pose proof (Ho T2). cbn [thread] in *. lia. }
      lia.
Qed.

Lemma run_quiet c0 cfg0 sched : forall s,
  int_min <= c0 /\ c0 + 2 * maxCount <= int_max ->
  c0 + 2 * maxCount <= 50 ->
  inv c0 cfg0 s -> warning_line ∉ cout s -> warning_line ∉ cout (run sched s).
Proof.
  induction sched as [|a sched IH]; intros s Hc0 Hlow Hinv Hq; [done|]. cbn [run].
  destruct (step a s) as [s'|] eqn:Hstep; unfold default; cbn [from_option id].
  - apply IH; try done; [by eapply step_inv | by eapply step_keeps_quiet].
  - by apply IH.
Qed.

(** X14: when [Global_count] starts at 30 or less (in the program it
    starts at 0), no run ever writes "High load warning!": the lines on
    [cout] that were not there before the threads started are never that
    line. *)
Theorem no_warning_below_threshold (c0 : Z) (cfg0 : Config) (out0 : list line)
    (sched : list actor)
    (Hmin : int_min <= c0) (Hlow : c0 <= 30) (Hout : warning_line ∉ out0) :
  warning_line ∉ cout (run sched (init c0 cfg0 out0)).
Proof.
  assert (Hc0 : int_min <= c0 /\ c0 + 2 * maxCount <= int_max)
    by (unfold int_max, maxCount; lia).
  apply (run_quiet c0 cfg0); try done.
  - unfold maxCount. lia.
  - by apply inv_init.
  - by rewrite cout_init.
Qed.

Lemma no_warning_below_threshold_witness :
  warning_line ∉ cout (run sched_alternating (init 0 main_config main_lines)).
Proof.
  apply no_warning_below_threshold.
  - unfold int_min. lia.
  - lia.
  - vm_compute. intros H. repeat (apply elem_of_cons in H as [H|H]; [discriminate H|]).
    by apply elem_of_nil in H.
Defined.

Lemma prints_app es1 es2 : prints (es1 ++ es2) = prints es1 ++ prints es2.
Proof. apply omap_app. Qed.

Lemma elem_of_proj a e l : e ∈ proj a l -> (a, e) ∈ l.
Proof.
  unfold proj. rewrite list_elem_of_omap. intros ([a' e'] & Hin & Hx).
  cbn in Hx. destruct (decide (a' = a)) as [->|]; [|done]. by injection Hx as ->.
Qed.

Lemma elem_of_cout s a l : (a, EvPrint l) ∈ log s -> l ∈ cout s.
Proof.
  intros Hin. unfold cout. rewrite list_elem_of_omap. by exists (a, EvPrint l).
Qed.

Lemma prints_iterations id c gs :
  EvPrint warning_line ∉ iterations id c gs ->
  prints (iterations id c gs) =
    (fun i => status_line id (Z.of_nat i) c) <$> seq 0 (length gs).
Proof.
  induction gs as [|g gs IH] using rev_ind; [done|].
  rewrite iterations_snoc, not_elem_of_app, warning_in_iteration.
  intros [Hgs Hg]. rewrite prints_app, (IH Hgs), length_app, Nat.add_1_r, seq_S.
  rewrite fmap_app. f_equal. unfold iteration, locked_part.
  by destruct (Z.ltb_spec 50 g); [lia|].
Qed.

(** X15: when [Global_count] starts at 30 or less (in the program it
    starts at 0), a worker that has returned has written exactly ten lines,
    in this order: its status lines for the iterations 0 to 9, each with
    its own [ID] and the configuration [main] passed. *)
Theorem worker_output (c0 : Z) (cfg0 : Config) (out0 : list line)
    (sched : list actor) (t : tid)
    (Hmin : int_min <= c0) (Hlow : c0 <= 30) (Hout : warning_line ∉ out0)
    (Hret : has_returned t (run sched (init c0 cfg0 out0)) = true) :
  prints (proj (W t) (log (run sched (init c0 cfg0 out0)))) =
    (fun i => status_line (tid_ID t) (Z.of_nat i) cfg0) <$> seq 0 10.
Proof.
  assert (Hc0 : int_min <= c0 /\ c0 + 2 * maxCount <= int_max)
    by (unfold int_max, maxCount; lia).
  pose proof (reachable_inv c0 cfg0 Hc0 out0 sched) as Hinv.
  assert (Hq : warning_line ∉ cout (run sched (init c0 cfg0 out0))).
  { apply (run_quiet c0 cfg0); try done;
      [unfold maxCount; lia | by apply inv_init | by rewrite cout_init]. }
  set (s := run sched (init c0 cfg0 out0)) in *.
  apply has_returned_true in Hret as (w & Hw & Hp).
  destruct (inv_workers _ _ _ Hinv t w Hw) as [HID Hcfg _ _ _ _ _ (gs & Hlen & Hproj)].
  rewrite Hp in Hlen, Hproj. cbn in Hlen, Hproj. rewrite app_nil_r in Hproj.
  rewrite Hproj, prints_iterations.
  - rewrite HID, Hcfg. by replace (length gs) with 10%nat by (unfold maxCount in Hlen; lia).
  - intros Hin. apply Hq. rewrite <- Hproj in Hin.
    by eapply elem_of_cout, elem_of_proj.
Qed.

Lemma worker_output_witness :
  prints (proj (W T2) (log (run sched_alternating (init 0 main_config main_lines)))) =
    (fun i => status_line 2 (Z.of_nat i) main_config) <$> seq 0 10.
Proof.
  apply (worker_output 0 main_config main_lines sched_alternating T2).
  - unfold int_min. lia.
  - lia.
  - vm_compute. intros H. repeat (apply elem_of_cons in H as [H|H]; [discriminate H|]).
    by apply elem_of_nil in H.
  - by vm_compute.
Defined.

Lemma worker_step_main_pc t w s s' :
  worker_step t w s = Some s' -> main_pc s' = main_pc s.
Proof.
  unfold worker_step. intros Hstep.
  destruct (pc w) as [i|i|i v|i|i|i|i|];
    repeat match type of Hstep with
           | context [Z.ltb ?x ?y] => destruct (Z.ltb x y)
           | context [globalMutex s] => destruct (globalMutex s); [done|]
           end;
    try done; by injection Hstep as <-.
Qed.

(** What [main] has written: the lines of before the threads, and its last
    line once it is at its [return]. *)
Lemma main_prints_step c0 cfg0 out0 a s s' :
  inv c0 cfg0 s -> step a s = Some s' ->
  prints (proj Main (log s)) =
    out0 ++ match main_pc s with
            | MReturn => [[OStr "Global_count = "; OInt (c0 + 20)]]
            | _ => []
            end ->
  prints (proj Main (log s')) =
    out0 ++ match main_pc s' with
            | MReturn => [[OStr "Global_count = "; OInt (c0 + 20)]]
            | _ => []
            end.
Proof.
  intros Hinv Hstep Hm. destruct a as [|t]; cbn [step] in Hstep.
  - pose proof (inv_main _ _ _ Hinv) as Hmain. unfold main_step in Hstep.
    destruct (main_pc s) eqn:Hpc;
      repeat match type of Hstep with
             | context [has_returned ?t s] => destruct (has_returned t s); [|done]
             end;
      try done; injection Hstep as <-;
      cbn [log main_pc set_main_pc spawn emit set_thread];
      rewrite proj_snoc_eq, prints_app, Hm; unfold prints; cbn [omap];
      rewrite ?app_nil_r; try done.
    destruct Hmain as [H1 H2]. rewrite (inv_count _ _ _ Hinv).
    change (t1 s) with (thread T1 s). change (t2 s) with (thread T2 s).
    rewrite !returned_increments by done. unfold maxCount.
    by replace (c0 + 10 + 10) with (c0 + 20) by lia.
  - destruct (thread t s) as [w|] eqn:Hw; [|done]. cbn [mbind option_bind] in Hstep.
    rewrite (worker_step_main_pc t w s s' Hstep).
    destruct (worker_step_log t w s s' Hstep) as [->|[e ->]]; [done|].
    by rewrite proj_snoc_ne.
Qed.

Lemma main_prints_run c0 cfg0 out0 sched : forall s,
  int_min <= c0 /\ c0 + 2 * maxCount <= int_max ->
  inv c0 cfg0 s ->
  prints (proj Main (log s)) =
    out0 ++ match main_pc s with
            | MReturn => [[OStr "Global_count = "; OInt (c0 + 20)]]
            | _ => []
            end ->
  prints (proj Main (log (run sched s))) =
    out0 ++ match main_pc (run sched s) with
            | MReturn => [[OStr "Global_count = "; OInt (c0 + 20)]]
            | _ => []
            end.
Proof.
  induction sched as [|a sched IH]; intros s Hc0 Hinv Hm; [done|]. cbn [run].
  destruct (step a s) as [s'|] eqn:Hstep; unfold default; cbn [from_option id].
  - apply IH; try done; [by eapply step_inv | by eapply main_prints_step].
  - by apply IH.
Qed.

Lemma main_prints_init c0 cfg0 out0 :
  prints (proj Main (log (init c0 cfg0 out0))) = out0.
Proof.
  unfold init. cbn [log]. induction out0 as [|l out0 IH]; [done|].
  cbn. rewrite decide_True by done. cbn. f_equal. apply IH.
Qed.

Lemma cout_by_actor s :
  length (cout s) =
    (length (prints (proj Main (log s)))
     + length (prints (proj (W T1) (log s)))
     + length (prints (proj (W T2) (log s))))%nat.
Proof.
  unfold cout, prints, proj. induction (log s) as [|[a e] l IH]; [done|].
  destruct a as [|[|]], e; cbn; cbn in IH; repeat case_decide; try done; cbn; lia.
Qed.

Lemma cout_grows sched : forall s, cout s `prefix_of` cout (run sched s).
Proof.
  induction sched as [|a sched IH]; intros s; [done|]. cbn [run].
  destruct (step a s) as [s'|] eqn:Hstep; unfold default; cbn [from_option id];
    [|by apply IH].
  etrans; [|apply IH].
  destruct a as [|t]; cbn [step] in Hstep.
  - destruct (main_step_emits s s' Hstep) as (e & Hlog & _).
    rewrite (cout_snoc s s' Main e Hlog). by apply prefix_app_r.
  - destruct (thread t s) as [w|] eqn:Hw; [|done]. cbn [mbind option_bind] in Hstep.
    destruct (worker_step_log t w s s' Hstep) as [Hlog|[e Hlog]].
    + by rewrite (cout_same s s' Hlog).
    + rewrite (cout_snoc s s' (W t) e Hlog). by apply prefix_app_r.
Qed.

(** X16: what the whole program leaves on [cout].  At every moment of
    every run the lines written before the threads started come first,
    untouched.  When [Global_count] starts at 30 or less (in the program it
    starts at 0) and [main] has reached its [return], exactly 21 lines have
    been added to them: ten by each worker and the last one by [main].  The
    program itself writes 33 lines, whatever the schedule. *)
Theorem program_output (c0 : Z) (cfg0 : Config) (out0 : list line)
    (sched : list actor)
    (Hmin : int_min <= c0) (Hlow : c0 <= 30) (Hout : warning_line ∉ out0) :
  out0 `prefix_of` cout (run sched (init c0 cfg0 out0)) /\
  (main_pc (run sched (init c0 cfg0 out0)) = MReturn ->
   length (cout (run sched (init c0 cfg0 out0))) = (length out0 + 21)%nat /\
   length (prints (proj (W T1) (log (run sched (init c0 cfg0 out0))))) = 10%nat /\
   length (prints (proj (W T2) (log (run sched (init c0 cfg0 out0))))) = 10%nat /\
   prints (proj Main (log (run sched (init c0 cfg0 out0)))) =
     out0 ++ [[OStr "Global_count = "; OInt (c0 + 20)]]) /\
  (forall s, main sched = Some s -> main_pc s = MReturn -> length (cout s) = 33%nat).
Proof.
  assert (Hgen : forall c cfg out,
    int_min <= c -> c <= 30 -> warning_line ∉ out ->
    main_pc (run sched (init c cfg out)) = MReturn ->
    length (cout (run sched (init c cfg out))) = (length out + 21)%nat /\
    length (prints (proj (W T1) (log (run sched (init c cfg out))))) = 10%nat /\
    length (prints (proj (W T2) (log (run sched (init c cfg out))))) = 10%nat /\
    prints (proj Main (log (run sched (init c cfg out)))) =
      out ++ [[OStr "Global_count = "; OInt (c + 20)]]).
  { clear. intros c0 cfg0 out0 Hmin Hlow Hout Hpc.
    assert (Hc0 : int_min <= c0 /\ c0 + 2 * maxCount <= int_max)
      by (unfold int_max, maxCount; lia).
    pose proof (reachable_inv c0 cfg0 Hc0 out0 sched) as Hinv.
    assert (Hq : warning_line ∉ cout (run sched (init c0 cfg0 out0))).
    { apply (run_quiet c0 cfg0); try done;
        [unfold maxCount; lia | by apply inv_init | by rewrite cout_init]. }
    pose proof (main_prints_run c0 cfg0 out0 sched _ Hc0 (inv_init c0 cfg0 out0)) as Hm.
    rewrite main_prints_init in Hm. specialize (Hm (eq_sym (app_nil_r _))).
    set (s := run sched (init c0 cfg0 out0)) in *.
    rewrite Hpc in Hm.
    assert (Hw : forall t, length (prints (proj (W t) (log s))) = 10%nat).
    { intros t. pose proof (inv_main _ _ _ Hinv) as Hmain. rewrite Hpc in Hmain.
      assert (Hr : has_returned t s = true) by (destruct t; tauto).
      apply has_returned_true in Hr as (w & Hw & Hp).
      destruct (inv_workers _ _ _ Hinv t w Hw) as [_ _ _ _ _ _ _ (gs & Hlen & Hproj)].
      rewrite Hp in Hlen, Hproj. cbn in Hlen, Hproj. rewrite app_nil_r in Hproj.
      rewrite Hproj, prints_iterations.
      - rewrite length_fmap, length_seq. unfold maxCount in Hlen. lia.
      - intros Hin. apply Hq. rewrite <- Hproj in Hin.
        by eapply elem_of_cout, elem_of_proj. }
    split; [|by rewrite !Hw].
    rewrite cout_by_actor, !Hw, Hm, length_app. cbn [length]. unfold line. lia. }
  split; [|split].
  - rewrite <- (cout_init c0 cfg0 out0) at 1. apply cout_grows.
  - by apply Hgen.
  - intros s ->%main_reaches Hpc.
    assert (Hout' : warning_line ∉ main_lines).
    { vm_compute. intros H.
      repeat (apply elem_of_cons in H as [H|H]; [discriminate H|]).
      by apply elem_of_nil in H. }
    assert (Hmin' : int_min <= 0) by (unfold int_min; lia).
    assert (Hlow' : 0 <= 30) by lia.
    destruct (Hgen 0 main_config main_lines Hmin' Hlow' Hout' Hpc) as [Hlen _].
    rewrite Hlen. by vm_compute.
Qed.

Lemma program_output_witness :
  length (cout (run sched_alternating (init 0 main_config main_lines))) = 33%nat.
Proof.
  assert (Hout : warning_line ∉ main_lines).
  { vm_compute. intros H.
    repeat (apply elem_of_cons in H as [H|H]; [discriminate H|]).
    by apply elem_of_nil in H. }
  assert (Hmin : int_min <= 0) by (unfold int_min; lia).
  assert (Hlow : 0 <= 30) by lia.
  assert (Hpc : main_pc (run sched_alternating (init 0 main_config main_lines)) = MReturn)
    by (by vm_compute).
  destruct (proj1 (proj2 (program_output 0 main_config main_lines sched_alternating
                            Hmin Hlow Hout)) Hpc) as [Hlen _].
  rewrite Hlen. by vm_compute.
Defined.
